(** * The photo collection cache and rotation engine of the Front Lawn splash page

    A shallow embedding of [lib/photos] ([getPhotos], [preloadImage]) and of
    the [Splash] component ([componentDidMount], the arrow-key handlers,
    [preloadNeighboringPhotos], [getPhoto]), followed by the properties the
    specification states about them.

    JavaScript numbers are integers of [Z] plus [NaN]; arrays are lists; the
    local storage is a finite map from string keys; asynchronous code is a
    state-and-error monad over a [World] that records the storage, the clock,
    the requests issued and the promises nobody awaits. *)

From Stdlib Require Import ZArith Lia QArith.QArith_base QArith.Qround.
From stdpp Require Import base option list strings gmap fin_maps.

Local Open Scope Z_scope.

(** ** JavaScript numbers and array reads *)

Module Js.

Inductive number : Type :=
| Num (z : Z)
| NaN.

#[global] Instance number_eq_dec : EqDecision number.
Proof. solve_decision. Defined.

Definition add (a b : number) : number :=
  match a, b with
  | Num x, Num y => Num (x + y)
  | _, _ => NaN
  end.

Definition sub (a b : number) : number :=
  match a, b with
  | Num x, Num y => Num (x - y)
  | _, _ => NaN
  end.

(** [a % b]: the remainder has the sign of the dividend, and [a % 0] is
    [NaN]. *)
Definition rem (a b : number) : number :=
  match a, b with
  | Num x, Num y => if decide (y = 0) then NaN else Num (Z.rem x y)
  | _, _ => NaN
  end.

(** [arr.length] *)
Definition length {A : Type} (arr : list A) : number :=
  Num (Z.of_nat (List.length arr)).

(** [arr[i]]: [undefined] (here [None]) outside the array and at [NaN]. *)
Definition get {A : Type} (arr : list A) (i : number) : option A :=
  match i with
  | Num z => if decide (0 <= z) then arr !! Z.to_nat z else None
  | NaN => None
  end.

End Js.

Import Js.

(** ** lib/utils and lib/time *)

(** Modelled from the spec: [modIndex] of [lib/utils], which is not among the
    sources.  The spec gives its formula:
    [normalizedIndex = ((index % length) + length) % length]. *)
Definition modIndex {A : Type} (index : number) (arr : list A) : number :=
  rem (add (rem index (Js.length arr)) (Js.length arr)) (Js.length arr).

(** Modelled from the spec: the unit that [sinceEpoch] is called with. *)
Inductive TimeUnit : Type := days.

(** Modelled from the spec: the milliseconds in one unit, a UTC day having
    86400000 of them. *)
Definition ms_per (u : TimeUnit) : Z :=
  match u with
  | days => 86400000
  end.

(** Modelled from the spec: [sinceEpoch] of [lib/time], which is not among the
    sources.  The spec describes [sinceEpoch('days')] as the days since the
    Unix epoch, using UTC: the whole days contained in the millisecond
    timestamp [now] that [Date.now()] returns. *)
Definition sinceEpoch (u : TimeUnit) (now : Z) : Z := now / ms_per u.

(** ** Data model (etc/types) *)

(** The fields of a photo that the code reads: [photo.id], [photo.color] and
    [photo.urls.full]. *)
Record Urls : Type := { full : string }.

Record UnsplashPhotoResource : Type :=
  { id : string; color : string; urls : Urls }.

#[global] Instance Urls_eq_dec : EqDecision Urls.
Proof. solve_decision. Defined.

#[global] Instance UnsplashPhotoResource_eq_dec : EqDecision UnsplashPhotoResource.
Proof. solve_decision. Defined.

(** splash.tsx, componentDidMount: [modIndex(sinceEpoch('days'), photos)]. *)
Definition dayIndex {A : Type} (now : Z) (photos : list A) : number :=
  modIndex (Num (sinceEpoch days now)) photos.

(** ** The seeded shuffle *)

(** Modelled from the spec: the shuffle-seed package and the seeded generator
    under it are not among the sources, and the spec fixes the contract of the
    shuffle only (a permutation that is a function of collection and seed, any
    algorithm being acceptable).  The model below is one such shuffle, driven
    by an arbitrary seeded generator of numbers of [0, 1), as [Math.random]
    and its seeded replacements are. *)
Definition unit_range (rng : nat -> Q) : Prop :=
  forall n, (0 <= rng n)%Q /\ (rng n < 1)%Q.

Section Shuffle.

Context {A : Type}.

(** The seeded generator behind the shuffle: [seedrandom seed n] is the
    [n]-th number that the generator seeded with [seed] produces. *)
Variable seedrandom : string -> nat -> Q.

(** The seed used when no client identity is stored. *)
Variable fallback : string.

(** Modelled from the spec: the seed is the client identity if present, else
    a fixed fallback value. *)
Definition seedify (seed : option string) : string := default fallback seed.

(** Modelled from the spec: a draw [x] of [0, 1) scaled to an integer of
    [min..max]. *)
Definition seedRand (x : Q) (min max : Z) : Z :=
  Qfloor (x * inject_Z (max - min + 1))%Q + min.

(** Modelled from the spec: the key at position [r] is taken out of the
    remaining keys. *)
Definition splice1 (r : Z) (keys : list nat) : list nat :=
  if decide (0 <= r) then delete (Z.to_nat r) keys else keys.

(** Modelled from the spec: one round per element.  A round draws a position
    [r] among the remaining keys, takes the key [g] found there out of [keys]
    and pushes [arr[g]].  A draw outside the remaining keys, which a generator
    with values in [0, 1) never makes, pushes nothing. *)
Fixpoint shuffle_rounds (arr : list A) (rng : nat -> Q)
    (rounds i : nat) (keys : list nat) (resp : list A) : list A :=
  match rounds with
  | O => resp
  | S rounds' =>
      let r := seedRand (rng i) 0 (Z.of_nat (List.length keys) - 1) in
      let g := Js.get keys (Num r) in
      let keys' := splice1 r keys in
      match g ≫= (λ g, arr !! g) with
      | Some x => shuffle_rounds arr rng rounds' (S i) keys' (resp ++ [x])
      | None => shuffle_rounds arr rng rounds' (S i) keys' resp
      end
  end.

(** Modelled from the spec: [shuffleSeed.shuffle] of the shuffle-seed
    package, which is not among the sources.  The spec asks for a total
    reordering of the collection that is a function of the collection and of
    the seed, the seed being the client identity when there is one and a
    fixed fallback otherwise; the model draws the elements one by one with a
    generator seeded by that value. *)
Definition shuffle (arr : list A) (seed : option string) : list A :=
  shuffle_rounds arr (seedrandom (seedify seed))
    (List.length arr) 0 (seq 0 (List.length arr)) [].

End Shuffle.

(** ** The world around the page *)

Record Error : Type := { message : string }.

Module Cache.
(** interface CollectionCache *)
Record CollectionCache : Type :=
  { photos : list UnsplashPhotoResource; updatedAt : Z }.
End Cache.
Abbreviation CollectionCache := Cache.CollectionCache.

(** What the storage holds under a key: the collection cache or a string. *)
Inductive Value : Type :=
| VCache (c : CollectionCache)
| VString (s : string).

(** A promise that was started and that nobody awaits. *)
Inductive Floating : Type :=
| Refetch.   (* fetchAndUpdateCollection(), suspended on its request *)

(** How an image load ends: at which time, and with [load] or [error]. *)
Record Load : Type := { at_time : nat; loaded : bool }.

Record World : Type :=
  { storage : gmap string Value;   (* lib/storage *)
    clock : Z;                     (* what Date.now() returns *)
    requests : nat;                (* GET /images requests issued so far *)
    floating : list Floating;      (* promises not awaited *)
    console : list string }.       (* console.error lines *)

Record Env : Type :=
  { development : bool;                            (* NODE_ENV === 'development' *)
    CACHE_TTL : Z;                                 (* ms(CACHE_TTL) *)
    response : Error + list UnsplashPhotoResource; (* how GET /images settles *)
    latency : Z;                                   (* how long it takes *)
    writable : bool;                               (* does storage.setItem succeed *)
    query_src : option string;                     (* queryString().src *)
    image : string -> Load }.                      (* how an image URL loads *)

(** ** Asynchronous code: state and errors over the world *)

Definition Async (A : Type) : Type := World -> (Error + A) * World.

#[global] Instance Async_ret : MRet Async := λ A x w, (inr x, w).

#[global] Instance Async_bind : MBind Async := λ A B f m w,
  match m w with
  | (inr x, w') => f x w'
  | (inl e, w') => (inl e, w')
  end.

Definition throw {A : Type} (e : Error) : Async A := λ w, (inl e, w).

Definition set_storage (f : gmap string Value -> gmap string Value) (w : World) : World :=
  {| storage := f (storage w); clock := clock w; requests := requests w;
     floating := floating w; console := console w |}.

Definition set_clock (t : Z) (w : World) : World :=
  {| storage := storage w; clock := t; requests := requests w;
     floating := floating w; console := console w |}.

Definition set_requests (n : nat) (w : World) : World :=
  {| storage := storage w; clock := clock w; requests := n;
     floating := floating w; console := console w |}.

Definition set_floating (l : list Floating) (w : World) : World :=
  {| storage := storage w; clock := clock w; requests := requests w;
     floating := l; console := console w |}.

Definition set_console (l : list string) (w : World) : World :=
  {| storage := storage w; clock := clock w; requests := requests w;
     floating := floating w; console := l |}.

(** ** lib/photos *)

(** How a promise ends: fulfilled or rejected, and when. *)
Inductive Reason : Type :=
| ImageError (src : string)   (* the error event of an image *)
| TypeError.                  (* a property read on undefined *)

Inductive Settled : Type :=
| Fulfilled (t : nat)
| Rejected (t : nat) (reason : Reason).

(** [Promise.all]: fulfilled once every promise is, rejected as soon as one
    of them is. *)
Fixpoint Promise_all (promises : list Settled) : Settled :=
  match promises with
  | [] => Fulfilled 0
  | p :: rest =>
      match p, Promise_all rest with
      | Fulfilled t, Fulfilled t' => Fulfilled (Nat.max t t')
      | Fulfilled _, Rejected t' e' => Rejected t' e'
      | Rejected t e, Fulfilled _ => Rejected t e
      | Rejected t e, Rejected t' e' =>
          if decide (t ≤ t')%nat then Rejected t e else Rejected t' e'
      end
  end.

Section Photos.

Variable seedrandom : string -> nat -> Q.
Variable fallback : string.
Variable env : Env.

Definition COLLECTION_CACHE_KEY : string := "photoCollection".

(** [arr.includes(x)] *)
Definition includes (arr : list string) (x : string) : bool :=
  bool_decide (x ∈ arr).

(** [storage.keys()] *)
Definition storage_keys : Async (list string) :=
  λ w, (inr (map_to_list (storage w)).*1, w).

(** [storage.getItem(key)] *)
Definition storage_getItem (key : string) : Async (option Value) :=
  λ w, (inr (storage w !! key), w).

(** [storage.getItem<CollectionCache>(key)] for a key that is present.  A
    value of another type is outside the signature; the model raises. *)
Definition storage_getItem_cache (key : string) : Async CollectionCache :=
  v ← storage_getItem key;
  match v with
  | Some (VCache c) => mret c
  | _ => throw {| message := "not a CollectionCache" |}
  end.

(** [storage.getItem<string>(key)]: [null] (here [None]) for an absent key.
    A value of another type is outside the signature; the model reads it
    as absent. *)
Definition storage_getItem_string (key : string) : Async (option string) :=
  v ← storage_getItem key;
  mret (match v with
        | Some (VString s) => Some s
        | _ => None
        end).

(** [storage.setItem(key, value)], whose promise is left floating at its
    only call: the write is attempted, and its failure reaches nobody. *)
Definition storage_setItem (key : string) (v : Value) : Async () :=
  λ w, (inr (), if writable env then set_storage (insert key v) w else w).

(** [Date.now()] *)
Definition Date_now : Async Z := λ w, (inr (clock w), w).

(** [client.get('/images')] in two halves: the request is issued when the
    call is made; the awaiting code resumes [latency] later with the data or
    with the rejection. *)
Definition client_request : Async () :=
  λ w, (inr (), set_requests (S (requests w)) w).

Definition client_settled : Async (list UnsplashPhotoResource) :=
  λ w, (response env, set_clock (clock w + latency env) w).

(** The body of [fetchAndUpdateCollection] from its [await] on. *)
Definition fetchAndUpdateCollection_resumed : Async CollectionCache :=
  photos ← client_settled;
  now ← Date_now;
  let cacheData := {| Cache.photos := photos; Cache.updatedAt := now |} in
  storage_setItem COLLECTION_CACHE_KEY (VCache cacheData);;
  mret cacheData.

Definition fetchAndUpdateCollection : Async CollectionCache :=
  client_request;; fetchAndUpdateCollection_resumed.

(** A promise is left to the event loop. *)
Definition float (f : Floating) : Async () :=
  λ w, (inr (), set_floating (floating w ++ [f]) w).

(** [fetchAndUpdateCollection()] without [await]: the call runs up to its
    first [await], that is, it issues the request, and the rest is left
    floating. *)
Definition fetchAndUpdateCollection_floating : Async () :=
  client_request;; float Refetch.

Definition getPhotos : Async (list UnsplashPhotoResource) :=
  storageKeys ← storage_keys;
  photoCollection ←
    (if negb (includes storageKeys COLLECTION_CACHE_KEY) then
       cacheData ← fetchAndUpdateCollection;
       mret (Cache.photos cacheData)
     else
       cachedData ← storage_getItem_cache COLLECTION_CACHE_KEY;
       now ← Date_now;
       (if decide (CACHE_TTL env <= now - Cache.updatedAt cachedData)
        then fetchAndUpdateCollection_floating
        else mret ());;
       mret (Cache.photos cachedData));
  name ← storage_getItem_string "name";
  mret (shuffle seedrandom fallback photoCollection name).

(** A floating promise runs to its end; its value or rejection is
    dropped. *)
Definition resume (f : Floating) (w : World) : World :=
  match f with
  | Refetch => (fetchAndUpdateCollection_resumed w).2
  end.

(** The event loop runs every floating promise to its end. *)
Definition settle (w : World) : World :=
  foldl (λ w f, resume f w) (set_floating [] w) (floating w).

(** The client identity as [getPhotos] reads it from the storage. *)
Definition stored_name (w : World) : option string :=
  match storage w !! "name" with
  | Some (VString s) => Some s
  | _ => None
  end.

(** The world once a request was issued and has settled. *)
Definition requested (w : World) : World :=
  set_clock (clock w + latency env) (set_requests (S (requests w)) w).

(** [preloadImage(imgUrl)]: a promise that follows the image's [onload] and
    [onerror]. *)
Definition preloadImage (imgUrl : string) : Settled :=
  if loaded (image env imgUrl)
  then Fulfilled (at_time (image env imgUrl))
  else Rejected (at_time (image env imgUrl)) (ImageError imgUrl).

End Photos.

(** ** components/splash.tsx *)

Module Splash.

Record SplashState : Type :=
  { photos : list UnsplashPhotoResource;
    index : number;
    showSwatch : bool }.

Inductive Key : Type := ArrowLeft | ArrowRight.

#[global] Instance Key_eq_dec : EqDecision Key.
Proof. solve_decision. Defined.

(** The component: its React state and the keys bound with mousetrap. *)
Record Component : Type :=
  { state : SplashState;
    mousetrap : list Key }.

Definition initial : Component :=
  {| state := {| photos := []; index := Num 0; showSwatch := false |};
     mousetrap := [] |}.

(** What [render] shows. *)
Inductive View : Type :=
| EmptyDiv
| Background (photo : UnsplashPhotoResource) (swatch : bool).

(** What a call of [preloadNeighboringPhotos] does: the image loads it
    starts, and how the promise it returns ends. *)
Record Preload : Type :=
  { started : list string;
    outcome : Settled }.

Section Component.

Variable seedrandom : string -> nat -> Q.
Variable fallback : string.
Variable env : Env.

(** [this.setState(prevState => ({index: ...}))] *)
Definition setIndex (i : number) (s : SplashState) : SplashState :=
  {| photos := photos s; index := i; showSwatch := showSwatch s |}.

(** The callback bound to a key in [enableKeyboardShortcuts]. *)
Definition handler (k : Key) (prevState : SplashState) : SplashState :=
  match k with
  | ArrowLeft =>
      setIndex (modIndex (sub (index prevState) (Num 1)) (photos prevState)) prevState
  | ArrowRight =>
      setIndex (modIndex (add (index prevState) (Num 1)) (photos prevState)) prevState
  end.

Definition enableKeyboardShortcuts (c : Component) : Component :=
  if development env
  then {| state := state c; mousetrap := ArrowLeft :: ArrowRight :: mousetrap c |}
  else c.

(** A key press runs the callback bound to the key, if there is one. *)
Definition press (k : Key) (c : Component) : Component :=
  if bool_decide (k ∈ mousetrap c)
  then {| state := handler k (state c); mousetrap := mousetrap c |}
  else c.

Definition preloadNeighboringPhotos (s : SplashState) : Preload :=
  match Js.get (photos s) (modIndex (add (index s) (Num 1)) (photos s)) with
  | None => {| started := []; outcome := Rejected 0 TypeError |}
  | Some nextPhoto =>
      let promises := [preloadImage env (full (urls nextPhoto))] in
      if development env then
        match Js.get (photos s) (modIndex (sub (index s) (Num 1)) (photos s)) with
        | None =>
            {| started := [full (urls nextPhoto)];
               outcome := Rejected 0 TypeError |}
        | Some prevPhoto =>
            {| started := [full (urls nextPhoto); full (urls prevPhoto)];
               outcome :=
                 Promise_all (promises ++ [preloadImage env (full (urls prevPhoto))]) |}
        end
      else
        {| started := [full (urls nextPhoto)];
           outcome := Promise_all promises |}
  end.

(** A string is truthy unless it is empty. *)
Definition truthy (o : option string) : bool :=
  match o with
  | Some src => negb (bool_decide (src = ""))
  | None => false
  end.

Definition getPhoto (s : SplashState) : option UnsplashPhotoResource :=
  if development env && truthy (query_src env)
  then Some {| id := "SRC"; color := "black";
               urls := {| full := default "" (query_src env) |} |}
  else Js.get (photos s) (index s).

(** [render], as far as the photo it shows. *)
Definition render (s : SplashState) (swatch : bool) : View :=
  match getPhoto s with
  | None => EmptyDiv
  | Some photo => Background photo (development env && swatch)
  end.

Definition console_error (line : string) (w : World) : World :=
  set_console (console w ++ [line]) w.

Definition componentDidMount (c : Component) (w : World) : Component * World :=
  match getPhotos seedrandom fallback env w with
  | (inr photos, w') =>
      let index := modIndex (Num (sinceEpoch days (clock w'))) photos in
      (enableKeyboardShortcuts
         {| state := {| photos := photos; index := index;
                        showSwatch := showSwatch (state c) |};
            mousetrap := mousetrap c |},
       w')
  | (inl err, w') =>
      (c, console_error ("[Splash] Error: " +:+ message err) w')
  end.

(** A non-empty [photos] comes with an index that points into it. *)
Definition in_bounds (s : SplashState) : Prop :=
  photos s ≠ [] ->
  exists i, index s = Num i /\ 0 <= i < Z.of_nat (List.length (photos s)).

(** The components that a page can get to: mounted in some world, with
    any keys pressed. *)
Inductive reachable : Component -> Prop :=
| reachable_initial : reachable initial
| reachable_mount c w :
    reachable c -> reachable (componentDidMount c w).1
| reachable_press c k :
    reachable c -> reachable (press k c).

(** [componentDidUpdate]: [await this.preloadNeighboringPhotos()]; its
    promise ends as that one does. *)
Definition componentDidUpdate (s : SplashState) : Preload :=
  preloadNeighboringPhotos s.

End Component.

End Splash.

(** ** lib/photos: image URLs *)

(** A value of a [LooseObject], as far as query parameters go. *)
Inductive any : Type :=
| Str (s : string)
| Number (z : Z)
| Undefined.

(** [window.screen] *)
Record Screen : Type := { availWidth : Z; availHeight : Z }.

Section Urls.

(** [greaterOf] of [lib/utils], which is not among the sources: taken as it
    comes. *)
Variable greaterOf : Z -> Z -> Z.

(** [queryString.stringify] of the query-string package, which writes the
    parameters of an object whatever the order they were set in. *)
Variable stringify : gmap string any -> string.

Variable screen : Screen.

Definition getScreenSize : Z :=
  greaterOf (availWidth screen) (availHeight screen).

(** The object that [buildOptions] hands to [stringify]: the five defaults,
    then [...overrides], whose keys win. *)
Definition buildParams (overrides : option (gmap string any)) : gmap string any :=
  default ∅ overrides
    ∪ <["auto" := Str "format"]>
        (<["fit" := Str "max"]>
           (<["w" := Number getScreenSize]>
              (<["h" := Number getScreenSize]>
                 (<["q" := Number 80]> ∅)))).

Definition buildOptions (overrides : option (gmap string any)) : string :=
  stringify (buildParams overrides).

Definition getFullImageUrl (baseUrl : string) (options : option (gmap string any)) : string :=
  baseUrl +:+ "?" +:+ buildOptions options.

End Urls.

(** ** The Splash component that announces its photo

    The version of the component that also preloads the current photo and
    emits [photoReady] once it has loaded.  Its state, key handlers,
    [getPhoto] and [componentDidMount] are those of [Splash]. *)

Module SplashReady.

(** What [render] shows. *)
Inductive View : Type :=
| EmptyDiv
| Provider (photo : UnsplashPhotoResource) (backgroundImage : string) (swatch : bool).

(** What a call of [preloadPhotos] does: the image loads it starts, how the
    promise it returns ends, and the events it emits, each with its time. *)
Record Preload : Type :=
  { started : list string;
    outcome : Settled;
    emitted : list (nat * string) }.

(** [p.then(async () => events.emit(event))]: the event is emitted when [p]
    is fulfilled, and the new promise ends as [p] does. *)
Definition then_emit (p : Settled) (event : string) : Settled * list (nat * string) :=
  match p with
  | Fulfilled t => (Fulfilled t, [(t, event)])
  | Rejected t e => (Rejected t e, [])
  end.

Section Component.

Variable greaterOf : Z -> Z -> Z.
Variable stringify : gmap string any -> string.
Variable screen : Screen.
Variable env : Env.

(** [getFullImageUrl(url)] *)
Definition fullUrl (url : string) : string :=
  getFullImageUrl greaterOf stringify screen url None.

Definition preloadPhotos (s : Splash.SplashState) : Preload :=
  let currentPhoto :=
    Js.get (Splash.photos s) (modIndex (Splash.index s) (Splash.photos s)) in
  let nextPhoto :=
    Js.get (Splash.photos s)
      (modIndex (add (Splash.index s) (Num 1)) (Splash.photos s)) in
  match nextPhoto with
  | None => {| started := []; outcome := Rejected 0 TypeError; emitted := [] |}
  | Some nextPhoto =>
      let next := preloadImage env (fullUrl (full (urls nextPhoto))) in
      match currentPhoto with
      | None =>
          {| started := [fullUrl (full (urls nextPhoto))];
             outcome := Rejected 0 TypeError; emitted := [] |}
      | Some currentPhoto =>
          let current :=
            then_emit (preloadImage env (fullUrl (full (urls currentPhoto))))
              "photoReady" in
          let promises := [next; current.1] in
          let urls_started :=
            [fullUrl (full (urls nextPhoto)); fullUrl (full (urls currentPhoto))] in
          if development env then
            match Js.get (Splash.photos s)
                    (modIndex (sub (Splash.index s) (Num 1)) (Splash.photos s)) with
            | None =>
                {| started := urls_started; outcome := Rejected 0 TypeError;
                   emitted := current.2 |}
            | Some prevPhoto =>
                {| started := urls_started ++ [fullUrl (full (urls prevPhoto))];
                   outcome :=
                     Promise_all
                       (promises ++ [preloadImage env (fullUrl (full (urls prevPhoto)))]);
                   emitted := current.2 |}
            end
          else
            {| started := urls_started; outcome := Promise_all promises;
               emitted := current.2 |}
      end
  end.

(** [render], as far as the photo and the background image it shows. *)
Definition render (s : Splash.SplashState) (swatch : bool) : View :=
  match Splash.getPhoto env s with
  | None => EmptyDiv
  | Some photo =>
      Provider photo (fullUrl (full (urls photo))) (development env && swatch)
  end.

End Component.

End SplashReady.

(** ** The images lambda *)

Module Lambda.

Section Handler.

(** The photo records of inspirat-types. *)
Context {InspiratPhotoResource : Type}.

Inductive Body : Type :=
| Message (message : string)                    (* { message } *)
| Photos (photos : list InspiratPhotoResource)  (* the collection *)
| Unset.                                        (* nothing written yet *)

Record Response : Type := { statusCode : Z; body : Body }.

(** [env<string>('STAGE', true)]: the value of the variable, or the error
    thrown for it. *)
Variable STAGE : Error + string.

(** [getJSON] of [lib/aws-s3], which is not among the sources: for a bucket
    and a key, the parsed object, nothing, or the error it is rejected
    with. *)
Variable getJSON : string -> string -> Error + option (list InspiratPhotoResource).

(** The handler works on the response it is given; [inl] is a rejection,
    which happens before the response was touched. *)
Definition handler (response : Response) : Error + Response :=
  match STAGE with
  | inl e => inl e
  | inr stage =>
      let bucket := "inspirat-" +:+ stage in
      let key := "photoCollection" in
      match getJSON bucket key with
      | inl e => inl e
      | inr None =>
          inr {| statusCode := 500;
                 body := Message "Response from S3 did not contain any photos." |}
      | inr (Some photoCollection) =>
          inr {| statusCode := statusCode response; body := Photos photoCollection |}
      end
  end.

End Handler.

End Lambda.

(** ** Sample data *)

Module Sample.

Definition photo (name : string) : UnsplashPhotoResource :=
  {| id := name;
     color := "#2b2b2b";
     urls := {| full := "https://images.unsplash.com/" +:+ name |} |}.

Definition three : list UnsplashPhotoResource :=
  [photo "a"; photo "b"; photo "c"].

Definition five : list UnsplashPhotoResource :=
  [photo "a"; photo "b"; photo "c"; photo "d"; photo "e"].

(** A generator that alternates between 1/2 and 0. *)
Definition rng (seed : string) (n : nat) : Q :=
  if Nat.even n then (1 # 2)%Q else 0%Q.

(** A generator that depends on its seed: the alternating one for the seed
    "lawn", constantly 0 for every other seed. *)
Definition rng_of_seed (seed : string) (n : nat) : Q :=
  if decide (seed = "lawn") then rng seed n else 0%Q.

(** Every image loads after 3 ticks. *)
Definition all_load (src : string) : Load := {| at_time := 3; loaded := true |}.

(** The image of photo "a" fails after 1 tick, the others load after 3. *)
Definition a_fails (src : string) : Load :=
  if decide (src = "https://images.unsplash.com/a")
  then {| at_time := 1; loaded := false |}
  else {| at_time := 3; loaded := true |}.

Definition six_hours : Z := 21600000.

Definition env (dev : bool) (r : Error + list UnsplashPhotoResource)
    (can_write : bool) (img : string -> Load) : Env :=
  {| development := dev; CACHE_TTL := six_hours; response := r;
     latency := 120; writable := can_write; query_src := None;
     image := img |}.

Definition world (store : gmap string Value) (now : Z) : World :=
  {| storage := store; clock := now; requests := 0; floating := [];
     console := [] |}.

Definition cached (photos : list UnsplashPhotoResource) (at_ : Z) : gmap string Value :=
  {[ "photoCollection" := VCache {| Cache.photos := photos; Cache.updatedAt := at_ |} ]}.

Definition noon : Z := 1762128000000 + 43200000.

Definition mounted (photos : list UnsplashPhotoResource) (i : number) : Splash.SplashState :=
  {| Splash.photos := photos; Splash.index := i; Splash.showSwatch := false |}.

(** A mounted component in development, with both arrow keys bound. *)
Definition component (photos : list UnsplashPhotoResource) (i : number) : Splash.Component :=
  {| Splash.state := mounted photos i;
     Splash.mousetrap := [Splash.ArrowLeft; Splash.ArrowRight] |}.

End Sample.

(** * Properties *)

(** ** Index normalisation *)

Lemma length_nonempty {A : Type} (arr : list A) :
  arr ≠ [] -> 0 < Z.of_nat (List.length arr).
Proof. destruct arr; [congruence | simpl; lia]. Qed.

Lemma rem_shift_mod (i n : Z) :
  0 < n -> Z.rem (Z.rem i n + n) n = i mod n.
Proof.
  intros Hn.
  assert (Hb : - n < Z.rem i n < n).
  { pose proof (Z.rem_bound_abs i n) as Habs. lia. }
  rewrite Z.rem_mod_nonneg by lia.
  rewrite <- (Z.add_mod_idemp_r (Z.rem i n) n n) by lia.
  rewrite Z.mod_same, Z.add_0_r by lia.
  pose proof (Z.quot_rem' i n) as Hq.
  replace (Z.rem i n) with (i + (- (i ÷ n)) * n) by lia.
  apply Z.mod_add. lia.
Qed.

Lemma modIndex_nonempty {A : Type} (i : Z) (arr : list A) :
  arr ≠ [] -> modIndex (Num i) arr = Num (i mod Z.of_nat (List.length arr)).
Proof.
  intros Hne. pose proof (length_nonempty arr Hne) as Hn.
  unfold modIndex, Js.length. simpl.
  destruct (decide (Z.of_nat (List.length arr) = 0)) as [H0 | _]; [lia |].
  simpl. destruct (decide (Z.of_nat (List.length arr) = 0)) as [H0 | _]; [lia |].
  f_equal. now apply rem_shift_mod.
Qed.

Lemma modIndex_empty {A : Type} (i : number) : modIndex i (@nil A) = NaN.
Proof. destruct i; reflexivity. Qed.

Lemma modIndex_NaN {A : Type} (arr : list A) : modIndex NaN arr = NaN.
Proof. reflexivity. Qed.

Lemma get_in_range {A : Type} (arr : list A) (i : Z) :
  0 <= i < Z.of_nat (List.length arr) -> is_Some (Js.get arr (Num i)).
Proof.
  intros Hi. unfold Js.get. destruct (decide (0 <= i)) as [_ | ?]; [| lia].
  apply lookup_lt_is_Some. lia.
Qed.

Lemma sinceEpoch_in_day (d t : Z) :
  ms_per days * d <= t < ms_per days * (d + 1) -> sinceEpoch days t = d.
Proof.
  unfold sinceEpoch. simpl. intros Ht.
  symmetry. apply (Z.div_unique t 86400000 d (t - 86400000 * d)); [left |]; lia.
Qed.

(** ** The day index *)

(** C3: for a non-empty collection of length [n], the day index is the number
    of whole UTC days since the epoch modulo [n]; it lies in [0, n); every
    timestamp of UTC day [d] gives the same index [d mod n]; and from a
    timestamp of day [d] to one of day [d + 1] the index goes from [i] to
    [(i + 1) mod n], which is [0] when [i] was the last position. *)
Theorem dayIndex_per_utc_day {A : Type} (photos : list A) (now : Z) :
  photos ≠ [] ->
  let n := Z.of_nat (List.length photos) in
  dayIndex now photos = Num ((now / 86400000) mod n)
  /\ 0 <= (now / 86400000) mod n < n
  /\ (forall d t, 86400000 * d <= t < 86400000 * (d + 1) ->
        dayIndex t photos = Num (d mod n))
  /\ (forall d t t' i,
        86400000 * d <= t < 86400000 * (d + 1) ->
        86400000 * (d + 1) <= t' < 86400000 * (d + 2) ->
        dayIndex t photos = Num i ->
        dayIndex t' photos = Num ((i + 1) mod n)
        /\ dayIndex t' photos = modIndex (add (dayIndex t photos) (Num 1)) photos
        /\ (i = n - 1 -> dayIndex t' photos = Num 0)).
Proof.
  intros Hne n. pose proof (length_nonempty photos Hne) as Hn. fold n in Hn.
  assert (Hday : forall d t, 86400000 * d <= t < 86400000 * (d + 1) ->
                   dayIndex t photos = Num (d mod n)).
  { intros d t Ht. unfold dayIndex.
    rewrite (sinceEpoch_in_day d t) by (simpl; lia).
    now apply modIndex_nonempty. }
  split; [| split; [| split]].
  - unfold dayIndex. now apply modIndex_nonempty.
  - apply Z.mod_pos_bound. lia.
  - exact Hday.
  - intros d t t' i Ht Ht' Hi.
    rewrite (Hday d t Ht) in Hi. injection Hi as Hi.
    assert (Hnext : dayIndex t' photos = Num ((i + 1) mod n)).
    { rewrite (Hday (d + 1) t') by lia. f_equal.
      rewrite <- Hi. now rewrite Z.add_mod_idemp_l by lia. }
    split; [exact Hnext | split].
    + rewrite Hnext, (Hday d t Ht). simpl.
      rewrite modIndex_nonempty by assumption. fold n. now rewrite Hi.
    + intros Hlast. rewrite Hnext. f_equal.
      replace (i + 1) with n by lia. apply Z.mod_same. lia.
Qed.

Lemma dayIndex_per_utc_day_witness :
  let photos := ["a"; "b"; "c"]%string in
  dayIndex 1762128000000 photos = Num 1
  /\ dayIndex (1762128000000 + 86399999) photos = Num 1
  /\ dayIndex (1762128000000 + 86400000) photos = Num 2
  /\ dayIndex (1762128000000 + 2 * 86400000) photos = Num 0.
Proof.
  intros photos.
  assert (Hne : photos ≠ []) by discriminate.
  destruct (dayIndex_per_utc_day photos 1762128000000 Hne) as (_ & _ & Hday & _).
  split; [| split; [| split]].
  - rewrite (Hday 20395); [reflexivity | lia].
  - rewrite (Hday 20395); [reflexivity | lia].
  - rewrite (Hday 20396); [reflexivity | lia].
  - rewrite (Hday 20397); [reflexivity | lia].
Defined.

(** ** The seeded shuffle *)

Section ShuffleFacts.

Context {A : Type}.
Variable seedrandom : string -> nat -> Q.
Variable fallback : string.

Lemma seedRand_range (x : Q) (n : Z) :
  (0 <= x)%Q -> (x < 1)%Q -> 0 < n -> 0 <= seedRand x 0 (n - 1) < n.
Proof.
  intros H0 H1 Hn. unfold seedRand.
  replace (n - 1 - 0 + 1) with n by lia. rewrite Z.add_0_r.
  assert (Hq : (inject_Z 0 < inject_Z n)%Q) by (rewrite <- Zlt_Qlt; exact Hn).
  change (inject_Z 0) with 0%Q in Hq.
  split.
  - rewrite <- (Qfloor_Z 0). apply Qfloor_resp_le.
    apply Qmult_le_0_compat; [exact H0 | now apply Qlt_le_weak].
  - rewrite Zlt_Qlt.
    apply Qle_lt_trans with (y := (x * inject_Z n)%Q); [apply Qfloor_le |].
    rewrite <- (Qmult_1_l (inject_Z n)) at 2.
    now apply Qmult_lt_compat_r.
Qed.

(** Reading every index of an array in turn gives the array back. *)
Lemma omap_lookup_seq (l1 l2 : list A) :
  omap (λ g, (l1 ++ l2) !! g) (seq (List.length l1) (List.length l2)) = l2.
Proof.
  revert l1. induction l2 as [| x l2 IH]; intros l1; [reflexivity |].
  simpl. rewrite list_lookup_middle by reflexivity.
  f_equal. specialize (IH (l1 ++ [x])).
  rewrite <- app_assoc, length_app, Nat.add_1_r in IH. exact IH.
Qed.

(** The rounds move the elements that [keys] still points at behind
    [resp], in some order. *)
Lemma shuffle_rounds_Permutation (arr : list A) (rng : nat -> Q) :
  unit_range rng ->
  forall rounds i keys resp,
    rounds = List.length keys ->
    shuffle_rounds arr rng rounds i keys resp
      ≡ₚ resp ++ omap (λ g, arr !! g) keys.
Proof.
  intros Hrng. induction rounds as [| rounds IH]; intros i keys resp Hlen.
  - destruct keys; [| discriminate]. simpl. now rewrite app_nil_r.
  - cbn [shuffle_rounds].
    destruct (Hrng i) as [Hlo Hhi].
    pose proof (seedRand_range (rng i) (Z.of_nat (List.length keys)) Hlo Hhi) as Hr.
    set (r := seedRand (rng i) 0 (Z.of_nat (List.length keys) - 1)) in *.
    assert (Hr' : 0 <= r < Z.of_nat (List.length keys)) by (apply Hr; lia).
    unfold Js.get, splice1.
    destruct (decide (0 <= r)) as [_ | ?]; [| lia].
    destruct (lookup_lt_is_Some_2 keys (Z.to_nat r)) as [g Hg]; [lia |].
    rewrite Hg. cbn [mbind option_bind].
    assert (Hdel : List.length (delete (Z.to_nat r) keys) = rounds).
    { rewrite length_delete by eauto. lia. }
    rewrite (omap_Permutation _ _ _ (delete_Permutation keys _ g Hg)).
    cbn [omap list_omap].
    destruct (arr !! g) as [x |].
    + rewrite IH by (symmetry; exact Hdel).
      rewrite <- app_assoc. reflexivity.
    + now rewrite IH by (symmetry; exact Hdel).
Qed.

Lemma shuffle_Permutation (arr : list A) (seed : option string) :
  unit_range (seedrandom (seedify fallback seed)) ->
  shuffle seedrandom fallback arr seed ≡ₚ arr.
Proof.
  intros Hrng. unfold shuffle.
  rewrite shuffle_rounds_Permutation by (try exact Hrng; now rewrite length_seq).
  simpl. exact (eq_ind_r (λ l, l ≡ₚ arr) (reflexivity arr) (omap_lookup_seq [] arr)).
Qed.

End ShuffleFacts.

(** ** getPhotos *)

Section PhotosFacts.

Variable seedrandom : string -> nat -> Q.
Variable fallback : string.
Variable env : Env.

#[local] Abbreviation getPhotos' := (getPhotos seedrandom fallback env).
#[local] Abbreviation shuffle' := (shuffle seedrandom fallback).

Lemma includes_keys (w : World) (key : string) :
  includes (map_to_list (storage w)).*1 key = bool_decide (is_Some (storage w !! key)).
Proof.
  unfold includes. apply bool_decide_ext.
  rewrite list_elem_of_fmap. split.
  - intros [[k v] [-> Hin]]. apply elem_of_map_to_list in Hin. simpl. eauto.
  - intros [v Hv]. exists (key, v). split; [reflexivity |].
    now apply elem_of_map_to_list.
Qed.

(** The write that [fetchAndUpdateCollection] attempts. *)
Lemma resumed_world (w : World) :
  (fetchAndUpdateCollection_resumed env w).2 =
    match response env with
    | inl _ => set_clock (clock w + latency env) w
    | inr photos =>
        if writable env
        then set_storage
               (insert COLLECTION_CACHE_KEY
                  (VCache {| Cache.photos := photos;
                             Cache.updatedAt := clock w + latency env |}))
               (set_clock (clock w + latency env) w)
        else set_clock (clock w + latency env) w
    end.
Proof.
  unfold fetchAndUpdateCollection_resumed, mbind, Async_bind, client_settled,
    Date_now, storage_setItem, mret, Async_ret.
  destruct (response env); [reflexivity |].
  cbn. now destruct (writable env).
Qed.

(** No cache entry: the request is awaited. *)
Lemma getPhotos_miss (w : World) :
  storage w !! COLLECTION_CACHE_KEY = None ->
  getPhotos' w =
    match response env with
    | inl e => (inl e, requested env w)
    | inr photos =>
        (inr (shuffle' photos (stored_name w)),
         if writable env
         then set_storage
                (insert COLLECTION_CACHE_KEY
                   (VCache {| Cache.photos := photos;
                              Cache.updatedAt := clock w + latency env |}))
                (requested env w)
         else requested env w)
    end.
Proof.
  intros Hmiss. unfold getPhotos.
  unfold mbind, Async_bind, storage_keys at 1.
  rewrite includes_keys, Hmiss.
  rewrite bool_decide_eq_false_2 by (intros [? ?]; discriminate).
  cbn [negb].
  unfold fetchAndUpdateCollection, fetchAndUpdateCollection_resumed.
  unfold mbind, Async_bind, client_request, client_settled, mret, Async_ret,
    Date_now, storage_setItem, storage_getItem_string, storage_getItem.
  fold (requested env w).
  destruct (response env) as [e | photos]; [reflexivity |].
  unfold mbind, Async_bind, mret, Async_ret. cbn [Cache.photos].
  destruct (writable env); unfold stored_name, requested; cbn;
    [rewrite lookup_insert_ne by discriminate |]; reflexivity.
Qed.

(** A cache entry: its photos are returned, and a stale entry leaves a
    refetch floating. *)
Lemma getPhotos_hit (w : World) (c : CollectionCache) :
  storage w !! COLLECTION_CACHE_KEY = Some (VCache c) ->
  getPhotos' w =
    (inr (shuffle' (Cache.photos c) (stored_name w)),
     if decide (CACHE_TTL env <= clock w - Cache.updatedAt c)
     then set_floating (floating w ++ [Refetch]) (set_requests (S (requests w)) w)
     else w).
Proof.
  intros Hhit. unfold getPhotos.
  unfold mbind, Async_bind, storage_keys at 1.
  rewrite includes_keys, Hhit.
  rewrite bool_decide_eq_true_2 by eauto.
  cbn [negb].
  unfold storage_getItem_cache, storage_getItem, mbind, Async_bind.
  rewrite Hhit. unfold mret, Async_ret, Date_now.
  destruct (decide (CACHE_TTL env <= clock w - Cache.updatedAt c)); reflexivity.
Qed.


Lemma settle_nothing (w : World) : floating w = [] -> settle env w = w.
Proof. destruct w; simpl; intros ->; reflexivity. Qed.

(** C9: with a cache entry younger than the TTL, [getPhotos] returns the
    entry's photos (shuffled) and leaves the world as it found it: no
    request is issued, nothing is written to the storage, and no promise is
    left floating that could do either later. *)
Theorem getPhotos_fresh_entry (w : World) (c : CollectionCache) :
  storage w !! COLLECTION_CACHE_KEY = Some (VCache c) ->
  clock w - Cache.updatedAt c < CACHE_TTL env ->
  getPhotos' w = (inr (shuffle' (Cache.photos c) (stored_name w)), w)
  /\ requests (getPhotos' w).2 = requests w
  /\ storage (getPhotos' w).2 = storage w
  /\ floating (getPhotos' w).2 = floating w
  /\ (floating w = [] -> settle env (getPhotos' w).2 = w).
Proof.
  intros Hhit Hfresh. rewrite (getPhotos_hit w c Hhit).
  destruct (decide (CACHE_TTL env <= clock w - Cache.updatedAt c)); [lia |].
  repeat split. apply settle_nothing.
Qed.

(** C1: with a cache entry at least as old as the TTL, [getPhotos] returns
    the entry's photos (shuffled: a reordering of them) whatever becomes of
    the refetch; when it returns, the request has been issued, the refetch is
    floating, no time was spent waiting and the stored entry is untouched.
    When the floating refetch later settles at some time [t]: if the request
    succeeded and the storage accepts the write, the entry is replaced by the
    fresh photos with the [updatedAt] read at that moment; if the request
    failed, the storage is as it was. *)
Theorem getPhotos_stale_entry (w : World) (c : CollectionCache) :
  storage w !! COLLECTION_CACHE_KEY = Some (VCache c) ->
  CACHE_TTL env <= clock w - Cache.updatedAt c ->
  floating w = [] ->
  let returned := getPhotos' w in
  returned.1 = inr (shuffle' (Cache.photos c) (stored_name w))
  /\ (unit_range (seedrandom (seedify fallback (stored_name w))) ->
      shuffle' (Cache.photos c) (stored_name w) ≡ₚ Cache.photos c)
  /\ storage returned.2 = storage w
  /\ clock returned.2 = clock w
  /\ requests returned.2 = S (requests w)
  /\ floating returned.2 = [Refetch]
  /\ forall t,
       let later := settle env (set_clock t returned.2) in
       floating later = []
       /\ requests later = S (requests w)
       /\ (forall fresh,
             response env = inr fresh -> writable env = true ->
             storage later =
               <[COLLECTION_CACHE_KEY :=
                   VCache {| Cache.photos := fresh;
                             Cache.updatedAt := clock later |}]> (storage w)
             /\ clock later = t + latency env)
       /\ (forall e, response env = inl e -> storage later = storage w).
Proof.
  intros Hhit Hstale Hnone returned. subst returned.
  rewrite (getPhotos_hit w c Hhit).
  destruct (decide (CACHE_TTL env <= clock w - Cache.updatedAt c)); [| lia].
  rewrite Hnone. cbn [fst snd app].
  split; [reflexivity |].
  split; [apply shuffle_Permutation |].
  do 4 (split; [reflexivity |]).
  intros t.
  unfold settle. cbn [floating set_floating set_clock set_requests foldl resume].
  rewrite resumed_world. cbn [clock latency].
  destruct (response env) as [e | photos].
  - repeat split; intros; discriminate.
  - destruct (writable env).
    + repeat split; intros; try discriminate.
      simplify_eq. reflexivity.
    + repeat split; intros; discriminate.
Qed.

(** C7: without a cache entry and with a request that succeeds, [getPhotos]
    issues exactly one request and awaits it, returns the fetched photos
    (shuffled: a reordering of them) and leaves nothing floating; if the
    storage accepts the write, the storage then holds the fetched photos
    under the collection key with [updatedAt] equal to the time of the write;
    if it does not, the storage is unchanged and [getPhotos] returns the
    same photos all the same. *)
Theorem getPhotos_cache_miss (w : World) (photos : list UnsplashPhotoResource) :
  storage w !! COLLECTION_CACHE_KEY = None ->
  response env = inr photos ->
  let returned := getPhotos' w in
  returned.1 = inr (shuffle' photos (stored_name w))
  /\ (unit_range (seedrandom (seedify fallback (stored_name w))) ->
      shuffle' photos (stored_name w) ≡ₚ photos)
  /\ requests returned.2 = S (requests w)
  /\ floating returned.2 = floating w
  /\ clock returned.2 = clock w + latency env
  /\ (writable env = true ->
      storage returned.2 =
        <[COLLECTION_CACHE_KEY :=
            VCache {| Cache.photos := photos;
                      Cache.updatedAt := clock returned.2 |}]> (storage w))
  /\ (writable env = false -> storage returned.2 = storage w).
Proof.
  intros Hmiss Hok returned. subst returned.
  rewrite (getPhotos_miss w Hmiss), Hok. cbn [fst snd].
  split; [reflexivity |].
  split; [apply shuffle_Permutation |].
  destruct (writable env); repeat split; intros; try discriminate; reflexivity.
Qed.

End PhotosFacts.

Lemma getPhotos_fresh_entry_witness :
  let env := Sample.env false (inr Sample.five) true Sample.all_load in
  let c := {| Cache.photos := Sample.three; Cache.updatedAt := Sample.noon - 1000 |} in
  let w := Sample.world (Sample.cached Sample.three (Sample.noon - 1000)) Sample.noon in
  storage w !! COLLECTION_CACHE_KEY = Some (VCache c)
  /\ clock w - Cache.updatedAt c < CACHE_TTL env
  /\ getPhotos Sample.rng "none" env w
      = (inr (shuffle Sample.rng "none" Sample.three (stored_name w)), w).
Proof.
  intros env c w.
  assert (Hhit : storage w !! COLLECTION_CACHE_KEY = Some (VCache c)) by reflexivity.
  assert (Hfresh : clock w - Cache.updatedAt c < CACHE_TTL env) by reflexivity.
  split; [exact Hhit | split; [exact Hfresh |]].
  exact (proj1 (getPhotos_fresh_entry Sample.rng "none" env w c Hhit Hfresh)).
Defined.


Lemma getPhotos_stale_entry_witness :
  let env := Sample.env false (inr Sample.five) true Sample.all_load in
  let c := {| Cache.photos := Sample.three;
              Cache.updatedAt := Sample.noon - Sample.six_hours |} in
  let w := Sample.world (Sample.cached Sample.three (Sample.noon - Sample.six_hours))
             Sample.noon in
  storage w !! COLLECTION_CACHE_KEY = Some (VCache c)
  /\ CACHE_TTL env <= clock w - Cache.updatedAt c
  /\ floating w = []
  /\ (getPhotos Sample.rng "none" env w).1
      = inr (shuffle Sample.rng "none" Sample.three (stored_name w)).
Proof.
  intros env c w.
  assert (Hhit : storage w !! COLLECTION_CACHE_KEY = Some (VCache c)) by reflexivity.
  assert (Hstale : CACHE_TTL env <= clock w - Cache.updatedAt c) by (vm_compute; discriminate).
  assert (Hnone : floating w = []) by reflexivity.
  split; [exact Hhit | split; [exact Hstale | split; [exact Hnone |]]].
  exact (proj1 (getPhotos_stale_entry Sample.rng "none" env w c Hhit Hstale Hnone)).
Defined.

Lemma getPhotos_cache_miss_witness :
  let env := Sample.env false (inr Sample.three) false Sample.all_load in
  let w := Sample.world ∅ Sample.noon in
  storage w !! COLLECTION_CACHE_KEY = None
  /\ response env = inr Sample.three
  /\ (getPhotos Sample.rng "none" env w).1
      = inr (shuffle Sample.rng "none" Sample.three (stored_name w)).
Proof.
  intros env w.
  assert (Hmiss : storage w !! COLLECTION_CACHE_KEY = None) by reflexivity.
  assert (Hok : response env = inr Sample.three) by reflexivity.
  split; [exact Hmiss | split; [exact Hok |]].
  exact (proj1 (getPhotos_cache_miss Sample.rng "none" env w Sample.three Hmiss Hok)).
Defined.

(** ** The Splash component *)

Section SplashFacts.

Import Splash.

Variable seedrandom : string -> nat -> Q.
Variable fallback : string.
Variable env : Env.

#[local] Abbreviation getPhotos' := (getPhotos seedrandom fallback env).
#[local] Abbreviation componentDidMount' := (componentDidMount seedrandom fallback env).
#[local] Abbreviation reachable' := (reachable seedrandom fallback env).

Lemma handler_photos (k : Key) (s : SplashState) : photos (handler k s) = photos s.
Proof. now destruct k. Qed.

Lemma handler_in_bounds (k : Key) (s : SplashState) : in_bounds s -> in_bounds (handler k s).
Proof.
  unfold in_bounds. rewrite handler_photos. intros Hs Hne.
  destruct (Hs Hne) as (i & Hi & _).
  pose proof (length_nonempty _ Hne) as Hn.
  destruct k; cbn [handler setIndex index photos]; rewrite Hi; cbn [sub add];
    rewrite modIndex_nonempty by assumption;
    (eexists; split; [reflexivity | apply Z.mod_pos_bound; lia]).
Qed.

Lemma press_in_bounds (k : Key) (c : Component) :
  in_bounds (state c) -> in_bounds (state (press k c)).
Proof.
  intros Hc. unfold press.
  destruct (bool_decide (k ∈ mousetrap c)); [| exact Hc].
  now apply handler_in_bounds.
Qed.

Lemma enableKeyboardShortcuts_state (c : Component) :
  state (enableKeyboardShortcuts env c) = state c.
Proof. unfold enableKeyboardShortcuts. now destruct (development env). Qed.

Lemma componentDidMount_in_bounds (c : Component) (w : World) :
  in_bounds (state c) -> in_bounds (state (componentDidMount' c w).1).
Proof.
  intros Hc. unfold componentDidMount.
  destruct (getPhotos' w) as [[err | fetched] w']; [exact Hc |].
  cbn [fst]. rewrite enableKeyboardShortcuts_state. cbn [state].
  unfold in_bounds. cbn [photos index]. intros Hne.
  rewrite modIndex_nonempty by assumption.
  pose proof (length_nonempty _ Hne) as Hn.
  eexists; split; [reflexivity | apply Z.mod_pos_bound; lia].
Qed.

Lemma reachable_in_bounds (c : Component) : reachable' c -> in_bounds (state c).
Proof.
  induction 1 as [| c w _ IH | c k _ IH].
  - intros Hne. now contradiction Hne.
  - now apply componentDidMount_in_bounds.
  - now apply press_in_bounds.
Qed.

(** C10: the index written at mount is [modIndex] of the day count and the
    index written by a bound arrow key is [modIndex] of the previous index
    plus or minus one; hence in every component that mounting and key
    presses can produce, a non-empty [photos] comes with an integer index of
    [0, photos.length), which [modIndex] leaves as it is, and the
    unnormalised read [photos[index]] of [getPhoto] finds a photo, which
    [getPhoto] returns unless the development [src] override replaces it, so
    that [render] never falls back to the empty div. *)
Theorem stored_index_in_bounds (c : Component) :
  reachable' c ->
  photos (state c) ≠ [] ->
  (exists i photo,
      index (state c) = Num i
      /\ 0 <= i < Z.of_nat (List.length (photos (state c)))
      /\ modIndex (index (state c)) (photos (state c)) = index (state c)
      /\ Js.get (photos (state c)) (index (state c)) = Some photo
      /\ (development env && truthy (query_src env) = false ->
          getPhoto env (state c) = Some photo)
      /\ (forall swatch, render env (state c) swatch ≠ EmptyDiv))
  /\ (forall w fetched w',
        getPhotos' w = (inr fetched, w') ->
        index (state (componentDidMount' c w).1)
          = modIndex (Num (sinceEpoch days (clock w'))) fetched
        /\ photos (state (componentDidMount' c w).1) = fetched)
  /\ (forall k,
        k ∈ mousetrap c ->
        index (state (press k c))
          = modIndex
              (match k with
               | ArrowLeft => sub (index (state c)) (Num 1)
               | ArrowRight => add (index (state c)) (Num 1)
               end) (photos (state c))
        /\ photos (state (press k c)) = photos (state c)).
Proof.
  intros Hreach Hne.
  destruct (reachable_in_bounds c Hreach Hne) as (i & Hi & Hrange).
  split; [| split].
  - destruct (get_in_range (photos (state c)) i Hrange) as [photo Hphoto].
    exists i, photo. rewrite Hi.
    split; [reflexivity | split; [exact Hrange |]].
    split; [| split; [exact Hphoto | split]].
    + rewrite modIndex_nonempty by assumption. f_equal.
      apply Z.mod_small. exact Hrange.
    + intros Hsrc. unfold getPhoto. rewrite Hsrc, Hi. exact Hphoto.
    + intros swatch. unfold render, getPhoto. rewrite Hi, Hphoto.
      destruct (development env && truthy (query_src env)); discriminate.
  - intros w fetched w' Hget. unfold componentDidMount. rewrite Hget.
    cbn [fst]. rewrite enableKeyboardShortcuts_state. split; reflexivity.
  - intros k Hk. unfold press. rewrite bool_decide_eq_true_2 by exact Hk.
    cbn [state]. now destruct k.
Qed.

End SplashFacts.

Lemma stored_index_in_bounds_witness :
  let env := Sample.env true (inr Sample.three) true Sample.all_load in
  let mounted := (Splash.componentDidMount Sample.rng "none" env Splash.initial
                    (Sample.world ∅ Sample.noon)).1 in
  let c := Splash.press Splash.ArrowLeft (Splash.press Splash.ArrowLeft mounted) in
  Splash.reachable Sample.rng "none" env c
  /\ Splash.photos (Splash.state c) ≠ []
  /\ exists i photo,
       Splash.index (Splash.state c) = Num i
       /\ 0 <= i < Z.of_nat (List.length (Splash.photos (Splash.state c)))
       /\ Js.get (Splash.photos (Splash.state c)) (Splash.index (Splash.state c))
          = Some photo.
Proof.
  intros env mounted c.
  assert (Hreach : Splash.reachable Sample.rng "none" env c).
  { do 2 apply Splash.reachable_press.
    apply Splash.reachable_mount, Splash.reachable_initial. }
  assert (Hne : Splash.photos (Splash.state c) ≠ []) by (vm_compute; discriminate).
  split; [exact Hreach | split; [exact Hne |]].
  destruct (proj1 (stored_index_in_bounds Sample.rng "none" env c Hreach Hne))
    as (i & photo & Hi & Hrange & _ & Hphoto & _).
  exists i, photo. auto.
Defined.

(** ** A failing source *)

Section SourceFailure.

Import Splash.

Variable seedrandom : string -> nat -> Q.
Variable fallback : string.
Variable env : Env.

#[local] Abbreviation getPhotos' := (getPhotos seedrandom fallback env).
#[local] Abbreviation componentDidMount' := (componentDidMount seedrandom fallback env).

(** C8: without a cache entry and with a request that fails, [getPhotos]
    is rejected with the error of the request, after exactly one request,
    with the storage unchanged and nothing left floating; and
    [componentDidMount] then logs the error message with [console.error],
    leaves the component as it was and schedules nothing that would try
    again. *)
Theorem getPhotos_source_unavailable (w : World) (e : Error) (c : Component) :
  storage w !! COLLECTION_CACHE_KEY = None ->
  response env = inl e ->
  (getPhotos' w).1 = inl e
  /\ storage (getPhotos' w).2 = storage w
  /\ requests (getPhotos' w).2 = S (requests w)
  /\ floating (getPhotos' w).2 = floating w
  /\ (componentDidMount' c w).1 = c
  /\ console (componentDidMount' c w).2
     = console w ++ ["[Splash] Error: " +:+ message e]
  /\ storage (componentDidMount' c w).2 = storage w
  /\ requests (componentDidMount' c w).2 = S (requests w)
  /\ floating (componentDidMount' c w).2 = floating w
  /\ (floating w = [] ->
      settle env (componentDidMount' c w).2 = (componentDidMount' c w).2).
Proof.
  intros Hmiss Hfail. unfold componentDidMount.
  rewrite (getPhotos_miss seedrandom fallback env w Hmiss), Hfail.
  cbn [fst snd]. do 9 (split; [reflexivity |]).
  intros Hnone. apply settle_nothing. exact Hnone.
Qed.

End SourceFailure.

Lemma getPhotos_source_unavailable_witness :
  let offline := {| message := "Network Error" |} in
  let env := Sample.env false (inl offline) true Sample.all_load in
  let w := Sample.world ∅ Sample.noon in
  storage w !! COLLECTION_CACHE_KEY = None
  /\ response env = inl offline
  /\ (getPhotos Sample.rng "none" env w).1 = inl offline
  /\ storage (getPhotos Sample.rng "none" env w).2 = ∅.
Proof.
  intros offline env w.
  assert (Hmiss : storage w !! COLLECTION_CACHE_KEY = None) by reflexivity.
  assert (Hfail : response env = inl offline) by reflexivity.
  split; [exact Hmiss | split; [exact Hfail |]].
  destruct (getPhotos_source_unavailable Sample.rng "none" env w offline
              Splash.initial Hmiss Hfail) as (Hres & Hstore & _).
  split; [exact Hres | exact Hstore].
Defined.

(** ** Navigation and preloading *)

Section Navigation.

Import Splash.

Variable env : Env.

(** What [preloadNeighboringPhotos] does on a non-empty collection. *)
Lemma preloadNeighboringPhotos_nonempty (s : SplashState) (i : Z) :
  photos s ≠ [] ->
  index s = Num i ->
  let n := Z.of_nat (List.length (photos s)) in
  exists nextPhoto prevPhoto,
    Js.get (photos s) (Num ((i + 1) mod n)) = Some nextPhoto
    /\ Js.get (photos s) (Num ((i - 1) mod n)) = Some prevPhoto
    /\ preloadNeighboringPhotos env s =
         if development env
         then {| started := [full (urls nextPhoto); full (urls prevPhoto)];
                 outcome := Promise_all [preloadImage env (full (urls nextPhoto));
                                         preloadImage env (full (urls prevPhoto))] |}
         else {| started := [full (urls nextPhoto)];
                 outcome := Promise_all [preloadImage env (full (urls nextPhoto))] |}.
Proof.
  intros Hne Hi n. pose proof (length_nonempty _ Hne) as Hn. fold n in Hn.
  destruct (get_in_range (photos s) ((i + 1) mod n)) as [nextPhoto Hnext];
    [apply Z.mod_pos_bound; lia |].
  destruct (get_in_range (photos s) ((i - 1) mod n)) as [prevPhoto Hprev];
    [apply Z.mod_pos_bound; lia |].
  exists nextPhoto, prevPhoto. split; [exact Hnext | split; [exact Hprev |]].
  unfold preloadNeighboringPhotos. rewrite Hi. cbn [add sub].
  rewrite !modIndex_nonempty by assumption. fold n. rewrite Hnext, Hprev.
  reflexivity.
Qed.

Lemma Promise_all_single (p : Settled) : Promise_all [p] = p.
Proof. destruct p; simpl; [now rewrite Nat.max_0_r | reflexivity]. Qed.

(** C6, amended: an arrow key stores [modIndex] of the index minus or plus
    one, that is [((x % length) + length) % length], so with a non-empty
    collection the stored index lies in [0, length): one step back from 0
    stores the last position, one step forward from the last position
    stores 0, and with five photos -1 is normalised to 4 and 5 to 0.  Of the
    readers, [preloadNeighboringPhotos] normalises the neighbours' indices
    with the same function, while [getPhoto] reads [photos[index]] as
    stored. *)
Theorem navigation_stores_normalized_index (s : SplashState) (i : Z) :
  photos s ≠ [] ->
  index s = Num i ->
  let n := Z.of_nat (List.length (photos s)) in
  index (handler ArrowLeft s) = Num ((i - 1) mod n)
  /\ index (handler ArrowRight s) = Num ((i + 1) mod n)
  /\ 0 <= (i - 1) mod n < n
  /\ 0 <= (i + 1) mod n < n
  /\ (forall x, modIndex (Num x) (photos s) = Num (Z.rem (Z.rem x n + n) n))
  /\ (i = 0 -> index (handler ArrowLeft s) = Num (n - 1))
  /\ (i = n - 1 -> index (handler ArrowRight s) = Num 0)
  /\ (n = 5 ->
      modIndex (Num (-1)) (photos s) = Num 4 /\ modIndex (Num 5) (photos s) = Num 0)
  /\ (development env && truthy (query_src env) = false ->
      getPhoto env s = Js.get (photos s) (Num i))
  /\ (exists nextPhoto,
        Js.get (photos s) (modIndex (Num (i + 1)) (photos s)) = Some nextPhoto
        /\ head (started (preloadNeighboringPhotos env s)) = Some (full (urls nextPhoto))).
Proof.
  intros Hne Hi n. pose proof (length_nonempty _ Hne) as Hn. fold n in Hn.
  assert (Hleft : index (handler ArrowLeft s) = Num ((i - 1) mod n)).
  { cbn [handler setIndex index]. rewrite Hi. cbn [sub].
    now apply modIndex_nonempty. }
  assert (Hright : index (handler ArrowRight s) = Num ((i + 1) mod n)).
  { cbn [handler setIndex index]. rewrite Hi. cbn [add].
    now apply modIndex_nonempty. }
  split; [exact Hleft | split; [exact Hright |]].
  split; [apply Z.mod_pos_bound; lia |].
  split; [apply Z.mod_pos_bound; lia |].
  split.
  { intros x. rewrite modIndex_nonempty by assumption. fold n.
    now rewrite rem_shift_mod. }
  split.
  { intros ->. rewrite Hleft. f_equal.
    rewrite <- (Z.mod_add _ 1 n) by lia.
    replace (0 - 1 + 1 * n) with (n - 1) by lia.
    apply Z.mod_small. lia. }
  split.
  { intros ->. rewrite Hright. f_equal.
    replace (n - 1 + 1) with n by lia. apply Z.mod_same. lia. }
  split.
  { intros H5. rewrite !modIndex_nonempty by assumption. fold n.
    rewrite H5. split; reflexivity. }
  split.
  { intros Hsrc. unfold getPhoto. now rewrite Hsrc, Hi. }
  destruct (preloadNeighboringPhotos_nonempty s i Hne Hi)
    as (nextPhoto & prevPhoto & Hnext & _ & Hpre).
  exists nextPhoto. rewrite modIndex_nonempty by assumption.
  split; [exact Hnext |]. rewrite Hpre. now destruct (development env).
Qed.

(** C4, amended: on a non-empty collection [preloadNeighboringPhotos]
    starts the load of the photo at the normalised index + 1 and, in
    development only, also that of the photo at the normalised index - 1,
    and returns [Promise.all] of what it started.  Outside development the
    promise ends exactly as the load of the next photo does.  In development
    it is fulfilled once both images have loaded, at the later of the two
    times, and it is rejected when either load fails. *)
Theorem preloadNeighboringPhotos_awaits_all (s : SplashState) (i : Z) :
  photos s ≠ [] ->
  index s = Num i ->
  exists nextPhoto prevPhoto,
    let next := preloadImage env (full (urls nextPhoto)) in
    let prev := preloadImage env (full (urls prevPhoto)) in
    let preload := preloadNeighboringPhotos env s in
    Js.get (photos s) (modIndex (Num (i + 1)) (photos s)) = Some nextPhoto
    /\ Js.get (photos s) (modIndex (Num (i - 1)) (photos s)) = Some prevPhoto
    /\ (development env = false ->
        started preload = [full (urls nextPhoto)] /\ outcome preload = next)
    /\ (development env = true ->
        started preload = [full (urls nextPhoto); full (urls prevPhoto)]
        /\ (forall t t', next = Fulfilled t -> prev = Fulfilled t' ->
              outcome preload = Fulfilled (Nat.max t t'))
        /\ (forall t t' e', next = Fulfilled t -> prev = Rejected t' e' ->
              outcome preload = Rejected t' e')
        /\ (forall t e t', next = Rejected t e -> prev = Fulfilled t' ->
              outcome preload = Rejected t e)
        /\ (forall t e t' e', next = Rejected t e -> prev = Rejected t' e' ->
              outcome preload = if decide (t ≤ t')%nat then Rejected t e else Rejected t' e')).
Proof.
  intros Hne Hi.
  destruct (preloadNeighboringPhotos_nonempty s i Hne Hi)
    as (nextPhoto & prevPhoto & Hnext & Hprev & Hpre).
  exists nextPhoto, prevPhoto. cbn zeta.
  rewrite !modIndex_nonempty by assumption.
  split; [exact Hnext | split; [exact Hprev |]].
  rewrite Hpre. split; intros Hdev; rewrite Hdev; cbn [started outcome].
  - split; [reflexivity | apply Promise_all_single].
  - split; [reflexivity |].
    repeat split; intros; simplify_eq; cbn [Promise_all];
      repeat match goal with H : _ = _ |- _ => rewrite H end;
      try reflexivity.
    now rewrite Nat.max_0_r.
Qed.

End Navigation.

Lemma navigation_stores_normalized_index_witness :
  let env := Sample.env true (inr Sample.five) true Sample.all_load in
  let s := Sample.mounted Sample.five (Num 0) in
  Splash.photos s ≠ []
  /\ Splash.index s = Num 0
  /\ Splash.index (Splash.handler Splash.ArrowLeft s) = Num 4.
Proof.
  intros env s.
  assert (Hne : Splash.photos s ≠ []) by discriminate.
  assert (Hi : Splash.index s = Num 0) by reflexivity.
  split; [exact Hne | split; [exact Hi |]].
  exact (proj1 (navigation_stores_normalized_index env s 0 Hne Hi)).
Defined.

(** C6 as stated does not hold.  With five photos, the left arrow at index 0
    stores 4, not -1, and the right arrow at index 4 stores 0, not 5: the
    bound is enforced when the index is written.  And [getPhoto] does not
    normalise when it reads: were -1 stored, it would read [undefined], where
    the normalised index 4 holds the last photo. *)
Lemma navigation_unnormalized_counterexample :
  let env := Sample.env true (inr Sample.five) true Sample.all_load in
  let first := Sample.component Sample.five (Num 0) in
  let last := Sample.component Sample.five (Num 4) in
  Splash.index (Splash.state (Splash.press Splash.ArrowLeft first)) = Num 4
  /\ Splash.index (Splash.state (Splash.press Splash.ArrowLeft first))
     ≠ sub (Splash.index (Splash.state first)) (Num 1)
  /\ Splash.index (Splash.state (Splash.press Splash.ArrowRight last)) = Num 0
  /\ Splash.index (Splash.state (Splash.press Splash.ArrowRight last))
     ≠ add (Splash.index (Splash.state last)) (Num 1)
  /\ Splash.getPhoto env (Sample.mounted Sample.five (Num (-1))) = None
  /\ Js.get Sample.five (modIndex (Num (-1)) Sample.five) = Some (Sample.photo "e").
Proof.
  intros env first last.
  split; [reflexivity | split; [discriminate |]].
  split; [reflexivity | split; [discriminate |]].
  split; reflexivity.
Qed.

Lemma preloadNeighboringPhotos_awaits_all_witness :
  let env := Sample.env true (inr Sample.three) true Sample.a_fails in
  let s := Sample.mounted Sample.three (Num 1) in
  Splash.photos s ≠ []
  /\ Splash.index s = Num 1
  /\ exists nextPhoto prevPhoto,
       Js.get (Splash.photos s) (modIndex (Num (1 + 1)) (Splash.photos s)) = Some nextPhoto
       /\ Js.get (Splash.photos s) (modIndex (Num (1 - 1)) (Splash.photos s)) = Some prevPhoto.
Proof.
  intros env s.
  assert (Hne : Splash.photos s ≠ []) by discriminate.
  assert (Hi : Splash.index s = Num 1) by reflexivity.
  split; [exact Hne | split; [exact Hi |]].
  destruct (preloadNeighboringPhotos_awaits_all env s 1 Hne Hi)
    as (nextPhoto & prevPhoto & Hnext & Hprev & _).
  exists nextPhoto, prevPhoto. split; [exact Hnext | exact Hprev].
Defined.

(** C4 as stated does not hold.  Three photos, index 1, in development: the
    image at index 2 loads, the image at index 0 fails, and the promise of
    [preloadNeighboringPhotos] is rejected with the failure of index 0; with
    every image loading, the same call is fulfilled.  Outside development the
    load of index 0 is not started at all. *)
Lemma preload_previous_counterexample :
  let s := Sample.mounted Sample.three (Num 1) in
  let dev_a_fails := Sample.env true (inr Sample.three) true Sample.a_fails in
  let dev_all_load := Sample.env true (inr Sample.three) true Sample.all_load in
  let prod_a_fails := Sample.env false (inr Sample.three) true Sample.a_fails in
  preloadImage dev_a_fails "https://images.unsplash.com/c" = Fulfilled 3
  /\ Splash.started (Splash.preloadNeighboringPhotos dev_a_fails s)
     = ["https://images.unsplash.com/c"; "https://images.unsplash.com/a"]
  /\ Splash.outcome (Splash.preloadNeighboringPhotos dev_a_fails s)
     = Rejected 1 (ImageError "https://images.unsplash.com/a")
  /\ Splash.outcome (Splash.preloadNeighboringPhotos dev_all_load s) = Fulfilled 3
  /\ Splash.started (Splash.preloadNeighboringPhotos prod_a_fails s)
     = ["https://images.unsplash.com/c"].
Proof.
  intros s dev_a_fails dev_all_load prod_a_fails.
  repeat split; vm_compute; reflexivity.
Qed.

(** ** What a successful getPhotos returns *)

Section Success.

Variable seedrandom : string -> nat -> Q.
Variable fallback : string.
Variable env : Env.

#[local] Abbreviation getPhotos' := (getPhotos seedrandom fallback env).
#[local] Abbreviation shuffle' := (shuffle seedrandom fallback).

(** Every successful call returns the shuffle of the collection that the
    request or the cache entry provided. *)
Lemma getPhotos_success (w : World) (result : list UnsplashPhotoResource) (w' : World) :
  getPhotos' w = (inr result, w') ->
  exists source,
    result = shuffle' source (stored_name w)
    /\ ((storage w !! COLLECTION_CACHE_KEY = None /\ response env = inr source)
        \/ (exists c, storage w !! COLLECTION_CACHE_KEY = Some (VCache c)
                      /\ source = Cache.photos c)).
Proof.
  intros Hget.
  destruct (storage w !! COLLECTION_CACHE_KEY) as [[c | s] |] eqn:Hkey.
  - rewrite (getPhotos_hit seedrandom fallback env w c Hkey) in Hget.
    exists (Cache.photos c). split; [congruence | right; eauto].
  - exfalso. revert Hget. unfold getPhotos.
    unfold mbind, Async_bind, storage_keys at 1.
    rewrite includes_keys, Hkey, bool_decide_eq_true_2 by eauto.
    cbn [negb]. unfold storage_getItem_cache, storage_getItem, mbind, Async_bind.
    rewrite Hkey. discriminate.
  - rewrite (getPhotos_miss seedrandom fallback env w Hkey) in Hget.
    destruct (response env) as [e | source]; [discriminate |].
    exists source. split; [congruence | left; auto].
Qed.

(** C5, amended: when [getPhotos] succeeds, what it returns is a reordering
    of the collection that the request delivered (no cache entry) or that the
    cache entry holds; it has the length of that collection, and it is
    non-empty exactly when that collection is. *)
Theorem getPhotos_returns_source (w : World) (result : list UnsplashPhotoResource)
    (w' : World) :
  (forall seed, unit_range (seedrandom seed)) ->
  getPhotos' w = (inr result, w') ->
  exists source,
    ((storage w !! COLLECTION_CACHE_KEY = None /\ response env = inr source)
     \/ (exists c, storage w !! COLLECTION_CACHE_KEY = Some (VCache c)
                   /\ source = Cache.photos c))
    /\ result ≡ₚ source
    /\ List.length result = List.length source
    /\ (result ≠ [] <-> source ≠ []).
Proof.
  intros Hrng Hget.
  destruct (getPhotos_success w result w' Hget) as (source & -> & Hsource).
  exists source. split; [exact Hsource |].
  assert (Hperm : shuffle' source (stored_name w) ≡ₚ source)
    by (apply shuffle_Permutation, Hrng).
  split; [exact Hperm | split; [now rewrite Hperm |]].
  split; intros Hne Hnil; apply Hne.
  - subst source. now apply Permutation_nil_r in Hperm.
  - rewrite Hnil in Hperm. now apply Permutation_nil in Hperm.
Qed.

End Success.

Lemma Sample_rng_unit_range (seed : string) : unit_range (Sample.rng seed).
Proof.
  intros n. unfold Sample.rng.
  destruct (Nat.even n); split; unfold Qle, Qlt; simpl; lia.
Qed.

Lemma getPhotos_returns_source_witness :
  let env := Sample.env false (inr Sample.three) true Sample.all_load in
  let w := Sample.world ∅ Sample.noon in
  exists result w',
    getPhotos Sample.rng "none" env w = (inr result, w')
    /\ result ≡ₚ Sample.three
    /\ result ≠ [].
Proof.
  intros env w.
  destruct (getPhotos Sample.rng "none" env w) as [[e | result] w'] eqn:Hget;
    [vm_compute in Hget; discriminate |].
  exists result, w'. split; [reflexivity |].
  destruct (getPhotos_returns_source Sample.rng "none" env w result w'
              Sample_rng_unit_range Hget)
    as (source & [[_ Hsource] | (c & Hc & _)] & Hperm & _ & Hne).
  - injection Hsource as <-. split; [exact Hperm | apply Hne; discriminate].
  - vm_compute in Hc. discriminate.
Defined.

(** C5 as stated does not hold.  With an empty storage and a request that
    delivers an empty array, and likewise with a cache entry whose photos are
    an empty array, [getPhotos] succeeds and returns an empty collection. *)
Lemma getPhotos_empty_counterexample :
  let env := Sample.env false (inr []) true Sample.all_load in
  (getPhotos Sample.rng "none" env (Sample.world ∅ Sample.noon)).1 = inr []
  /\ (getPhotos Sample.rng "none" env
        (Sample.world (Sample.cached [] (Sample.noon - 1000)) Sample.noon)).1 = inr [].
Proof. intros env. split; vm_compute; reflexivity. Qed.

(** ** The order of the returned collection *)

(** The rounds consult the generator they are given and nothing else. *)
Lemma shuffle_rounds_ext {A : Type} (arr : list A) (rng1 rng2 : nat -> Q) :
  (forall n, rng1 n = rng2 n) ->
  forall rounds i keys resp,
    shuffle_rounds arr rng1 rounds i keys resp
    = shuffle_rounds arr rng2 rounds i keys resp.
Proof.
  intros Hext. induction rounds as [| rounds IH]; intros i keys resp; [reflexivity |].
  cbn [shuffle_rounds]. rewrite (Hext i).
  destruct (Js.get keys _ ≫= _); apply IH.
Qed.

(** The shuffle consults the generator of its seed and no other. *)
Lemma shuffle_ext {A : Type} (seedrandom1 seedrandom2 : string -> nat -> Q)
    (fallback : string) (arr : list A) (seed : option string) :
  (forall n, seedrandom1 (seedify fallback seed) n = seedrandom2 (seedify fallback seed) n) ->
  shuffle seedrandom1 fallback arr seed = shuffle seedrandom2 fallback arr seed.
Proof. intros Hext. unfold shuffle. now apply shuffle_rounds_ext. Qed.

Section Order.

Variable seedrandom : string -> nat -> Q.
Variable fallback : string.

#[local] Abbreviation shuffle' := (shuffle seedrandom fallback).

(** [getPhotos] works on [source]: what the request delivers when there is no
    cache entry, the photos of the cache entry when there is one. *)
#[local] Abbreviation works_on env w source :=
  ((storage w !! COLLECTION_CACHE_KEY = None /\ response env = inr source)
   \/ (exists c, storage w !! COLLECTION_CACHE_KEY = Some (VCache c)
                 /\ source = Cache.photos c)).

(** The seed of a call of [getPhotos]: the string stored under 'name' when
    there is one, the fallback otherwise. *)
#[local] Abbreviation seed_of w :=
  (match storage w !! "name" with
   | Some (VString name) => name
   | _ => fallback
   end).

(** C2: with a generator of numbers of [0, 1), [shuffle C S] is a
    permutation of [C]: the same elements with the same multiplicities, as
    many of them, none repeated that was not; and it consults no generator but
    the one of its seed, which is [S] when there is one and the fallback
    otherwise.  A successful [getPhotos] returns the collection it works on
    (the fetched one on a miss, the cached one on a hit) in exactly the order
    that the rounds draw with the generator seeded by the stored 'name', or by
    the fallback when no name is stored: a permutation of that collection,
    which no generator of another seed can change.  So two successful calls,
    under whatever clocks, TTLs, request outcomes and cache states, that work
    on the same collection and find the same 'name' return the same list in
    the same order. *)
Theorem shuffle_seeded_permutation (C : list UnsplashPhotoResource) (S : option string) :
  (forall seed, unit_range (seedrandom seed)) ->
  shuffle' C S ≡ₚ C
  /\ List.length (shuffle' C S) = List.length C
  /\ (forall x, x ∈ shuffle' C S <-> x ∈ C)
  /\ (forall x, count_occ (decide_rel eq) (shuffle' C S) x = count_occ (decide_rel eq) C x)
  /\ (NoDup C -> NoDup (shuffle' C S))
  /\ (forall seedrandom2,
        (forall n, seedrandom2 (match S with Some name => name | None => fallback end) n
                   = seedrandom (match S with Some name => name | None => fallback end) n) ->
        shuffle seedrandom2 fallback C S = shuffle' C S)
  /\ (forall env w result w',
        getPhotos seedrandom fallback env w = (inr result, w') ->
        exists source,
          works_on env w source
          /\ result
             = shuffle_rounds source (seedrandom (seed_of w))
                 (List.length source) 0 (seq 0 (List.length source)) []
          /\ result ≡ₚ source
          /\ (forall seedrandom2,
                (forall n, seedrandom2 (seed_of w) n = seedrandom (seed_of w) n) ->
                getPhotos seedrandom2 fallback env w = (inr result, w')))
  /\ (forall env1 env2 w1 w2 result1 result2 w1' w2' source,
        getPhotos seedrandom fallback env1 w1 = (inr result1, w1') ->
        getPhotos seedrandom fallback env2 w2 = (inr result2, w2') ->
        works_on env1 w1 source ->
        works_on env2 w2 source ->
        storage w1 !! "name" = storage w2 !! "name" ->
        result1 = result2).
Proof.
  intros Hrng.
  assert (Hperm : shuffle' C S ≡ₚ C) by (apply shuffle_Permutation, Hrng).
  assert (Hseed : forall w, seedify fallback (stored_name w) = seed_of w).
  { intros w. unfold stored_name, seedify.
    destruct (storage w !! "name") as [[c | name] |]; reflexivity. }
  assert (Honly : forall env w source source',
            works_on env w source -> works_on env w source' -> source = source').
  { intros env w source source' [[Hm Hr] | (c & Hc & ->)] [[Hm' Hr'] | (c' & Hc' & ->)];
      congruence. }
  split; [exact Hperm |].
  split; [now rewrite Hperm |].
  split; [intros x; now rewrite Hperm |].
  split; [intros x; now apply Permutation_count_occ |].
  split; [intros Hnd; now rewrite Hperm |].
  split; [| split].
  - intros seedrandom2 Hext. apply shuffle_ext. now destruct S.
  - intros env w result w' Hget.
    destruct (getPhotos_success seedrandom fallback env w result w' Hget)
      as (source & Hres & Hsource).
    exists source. split; [exact Hsource |].
    split; [rewrite Hres; unfold shuffle; now rewrite Hseed |].
    split; [rewrite Hres; apply shuffle_Permutation, Hrng |].
    intros seedrandom2 Hext.
    assert (Hsame : shuffle seedrandom2 fallback source (stored_name w)
                    = shuffle' source (stored_name w))
      by (apply shuffle_ext; now rewrite Hseed).
    destruct Hsource as [[Hmiss Hok] | (c & Hhit & ->)].
    + rewrite (getPhotos_miss seedrandom fallback env w Hmiss), Hok in Hget.
      rewrite (getPhotos_miss seedrandom2 fallback env w Hmiss), Hok, Hsame.
      exact Hget.
    + rewrite (getPhotos_hit seedrandom fallback env w c Hhit) in Hget.
      rewrite (getPhotos_hit seedrandom2 fallback env w c Hhit), Hsame.
      exact Hget.
  - intros env1 env2 w1 w2 result1 result2 w1' w2' source Hget1 Hget2 Hs1 Hs2 Hname.
    destruct (getPhotos_success seedrandom fallback env1 w1 result1 w1' Hget1)
      as (source1 & -> & Hsource1).
    destruct (getPhotos_success seedrandom fallback env2 w2 result2 w2' Hget2)
      as (source2 & -> & Hsource2).
    rewrite <- (Honly env1 w1 source source1 Hs1 Hsource1).
    rewrite <- (Honly env2 w2 source source2 Hs2 Hsource2).
    f_equal. unfold stored_name. now rewrite Hname.
Qed.

End Order.

Lemma Sample_rng_of_seed_unit_range (seed : string) : unit_range (Sample.rng_of_seed seed).
Proof.
  intros n. unfold Sample.rng_of_seed.
  destruct (decide _); [apply Sample_rng_unit_range |].
  split; unfold Qle, Qlt; simpl; lia.
Qed.

Lemma shuffle_seeded_permutation_witness :
  let env := Sample.env false (inr Sample.three) true Sample.all_load in
  let named := Sample.world
                 (<["name" := VString "lawn"]> (Sample.cached Sample.five (Sample.noon - 1000)))
                 Sample.noon in
  let unnamed := Sample.world (Sample.cached Sample.five (Sample.noon - 1000)) Sample.noon in
  (forall seed, unit_range (Sample.rng_of_seed seed))
  /\ shuffle Sample.rng_of_seed "none" Sample.five (Some "lawn") ≡ₚ Sample.five
  /\ (getPhotos Sample.rng_of_seed "none" env named).1
     = inr [Sample.photo "c"; Sample.photo "a"; Sample.photo "d"; Sample.photo "b";
            Sample.photo "e"]
  /\ (getPhotos Sample.rng_of_seed "none" env unnamed).1 = inr Sample.five
  /\ exists source,
       source = Sample.five
       /\ (getPhotos Sample.rng_of_seed "none" env named).1
          = inr (shuffle_rounds source (Sample.rng_of_seed "lawn")
                   (List.length source) 0 (seq 0 (List.length source)) []).
Proof.
  intros env named unnamed.
  destruct (shuffle_seeded_permutation Sample.rng_of_seed "none" Sample.five (Some "lawn")
              Sample_rng_of_seed_unit_range)
    as (Hperm & _ & _ & _ & _ & _ & Hget & _).
  split; [exact Sample_rng_of_seed_unit_range |].
  split; [exact Hperm |].
  split; [vm_compute; reflexivity |].
  split; [vm_compute; reflexivity |].
  destruct (getPhotos Sample.rng_of_seed "none" env named) as [r w'] eqn:Hcall.
  assert (Hr : exists result, r = inr result).
  { apply (f_equal fst) in Hcall. vm_compute in Hcall. subst r. eauto. }
  destruct Hr as [result ->].
  destruct (Hget env named result w' Hcall)
    as (source & [[Hmiss _] | (c & Hc & ->)] & Hres & _).
  - vm_compute in Hmiss. discriminate.
  - assert (Hfive : Cache.photos c = Sample.five).
    { unfold named, Sample.world, Sample.cached in Hc. cbn [storage] in Hc.
      rewrite lookup_insert_ne in Hc by discriminate.
      rewrite lookup_singleton_eq in Hc. now injection Hc as <-. }
    exists (Cache.photos c). split; [exact Hfive |].
    cbn [fst]. f_equal. exact Hres.
Defined.

(** * Further properties of the code *)

(** ** getPhotos over several calls *)

Section PhotosSequences.

Variable seedrandom : string -> nat -> Q.
Variable fallback : string.

#[local] Abbreviation getPhotos' := (getPhotos seedrandom fallback).
#[local] Abbreviation shuffle' := (shuffle seedrandom fallback).

Lemma stored_name_ext (w w' : World) :
  storage w' !! "name" = storage w !! "name" -> stored_name w' = stored_name w.
Proof. unfold stored_name. now intros ->. Qed.

Lemma getPhotos_illtyped (env : Env) (w : World) (s : string) :
  storage w !! COLLECTION_CACHE_KEY = Some (VString s) ->
  getPhotos' env w = (inl {| message := "not a CollectionCache" |}, w).
Proof.
  intros Hkey. unfold getPhotos.
  unfold mbind, Async_bind, storage_keys at 1.
  rewrite includes_keys, Hkey, bool_decide_eq_true_2 by eauto.
  cbn [negb]. unfold storage_getItem_cache, storage_getItem, mbind, Async_bind.
  now rewrite Hkey.
Qed.

Lemma resume_frame (env : Env) (f : Floating) (w : World) :
  delete COLLECTION_CACHE_KEY (storage (resume env f w))
    = delete COLLECTION_CACHE_KEY (storage w)
  /\ console (resume env f w) = console w
  /\ requests (resume env f w) = requests w
  /\ floating (resume env f w) = floating w.
Proof.
  destruct f. unfold resume. rewrite resumed_world.
  destruct (response env); [repeat split |].
  destruct (writable env); repeat split.
  cbn. apply delete_insert_eq.
Qed.

Lemma settle_frame (env : Env) (w : World) :
  delete COLLECTION_CACHE_KEY (storage (settle env w))
    = delete COLLECTION_CACHE_KEY (storage w)
  /\ console (settle env w) = console w
  /\ requests (settle env w) = requests w
  /\ floating (settle env w) = [].
Proof.
  unfold settle.
  assert (Hfold : forall fs w0,
    delete COLLECTION_CACHE_KEY (storage (foldl (λ w f, resume env f w) w0 fs))
      = delete COLLECTION_CACHE_KEY (storage w0)
    /\ console (foldl (λ w f, resume env f w) w0 fs) = console w0
    /\ requests (foldl (λ w f, resume env f w) w0 fs) = requests w0
    /\ floating (foldl (λ w f, resume env f w) w0 fs) = floating w0).
  { induction fs as [| f fs IH]; intros w0; [repeat split |].
    cbn [foldl]. destruct (IH (resume env f w0)) as (H1 & H2 & H3 & H4).
    destruct (resume_frame env f w0) as (G1 & G2 & G3 & G4).
    repeat split; congruence. }
  destruct (Hfold (floating w) (set_floating [] w)) as (H1 & H2 & H3 & H4).
  repeat split; assumption.
Qed.

(** X1: whatever the storage holds and however the request ends, a call of
    [getPhotos] followed by the end of what it left floating changes no
    storage key other than the collection key, leaves the stored client
    identity as it was, and writes nothing with [console.error]. *)
Theorem getPhotos_touches_only_its_key (env : Env) (w : World) :
  let returned := (getPhotos' env w).2 in
  delete COLLECTION_CACHE_KEY (storage returned)
    = delete COLLECTION_CACHE_KEY (storage w)
  /\ delete COLLECTION_CACHE_KEY (storage (settle env returned))
     = delete COLLECTION_CACHE_KEY (storage w)
  /\ stored_name returned = stored_name w
  /\ stored_name (settle env returned) = stored_name w
  /\ console returned = console w
  /\ console (settle env returned) = console w.
Proof.
  intros returned.
  assert (Hcall : delete COLLECTION_CACHE_KEY (storage returned)
                    = delete COLLECTION_CACHE_KEY (storage w)
                  /\ console returned = console w).
  { subst returned.
    destruct (storage w !! COLLECTION_CACHE_KEY) as [[c | s] |] eqn:Hkey.
    - rewrite (getPhotos_hit _ _ env w c Hkey).
      destruct (decide _); split; reflexivity.
    - rewrite (getPhotos_illtyped env w s Hkey). split; reflexivity.
    - rewrite (getPhotos_miss _ _ env w Hkey).
      destruct (response env); [split; reflexivity |].
      destruct (writable env); split; try reflexivity.
      cbn. apply delete_insert_eq. }
  destruct Hcall as [Hstore Hconsole].
  destruct (settle_frame env returned) as (Sstore & Sconsole & _).
  assert (Hname : forall m m' : gmap string Value,
            delete COLLECTION_CACHE_KEY m = delete COLLECTION_CACHE_KEY m' ->
            m !! "name" = m' !! "name").
  { intros m m' Hd.
    rewrite <- (lookup_delete_ne m COLLECTION_CACHE_KEY "name") by discriminate.
    rewrite Hd. now apply lookup_delete_ne. }
  split; [exact Hstore |].
  split; [congruence |].
  split; [apply stored_name_ext, Hname, Hstore |].
  split; [apply stored_name_ext, Hname; congruence |].
  split; congruence.
Qed.

(** X2: a call of [getPhotos] issues at most one request, and the promises it
    leaves floating issue none when they end: a refetch that failed is not
    tried again by itself. *)
Theorem getPhotos_requests_at_most_once (env : Env) (w : World) :
  (requests (getPhotos' env w).2 = requests w
   \/ requests (getPhotos' env w).2 = S (requests w))
  /\ requests (settle env (getPhotos' env w).2) = requests (getPhotos' env w).2
  /\ floating (settle env (getPhotos' env w).2) = [].
Proof.
  destruct (settle_frame env (getPhotos' env w).2) as (_ & _ & Hreq & Hfl).
  split; [| split; assumption].
  destruct (storage w !! COLLECTION_CACHE_KEY) as [[c | s] |] eqn:Hkey.
  - rewrite (getPhotos_hit _ _ env w c Hkey).
    destruct (decide _); [right | left]; reflexivity.
  - rewrite (getPhotos_illtyped env w s Hkey). now left.
  - rewrite (getPhotos_miss _ _ env w Hkey). right.
    destruct (response env); [reflexivity |].
    now destruct (writable env).
Qed.

(** X3: once a cache miss has fetched and stored the collection, a later call
    made before the entry is [CACHE_TTL] old returns the very same list, in
    the same order, as the first call did, and changes nothing: no request, no
    write, nothing floating. *)
Theorem getPhotos_miss_then_hit (env env2 : Env) (w : World)
    (photos : list UnsplashPhotoResource) (t2 : Z) :
  storage w !! COLLECTION_CACHE_KEY = None ->
  response env = inr photos ->
  writable env = true ->
  let first := getPhotos' env w in
  t2 - clock first.2 < CACHE_TTL env2 ->
  getPhotos' env2 (set_clock t2 first.2) = (first.1, set_clock t2 first.2).
Proof.
  intros Hmiss Hok Hw first. subst first.
  rewrite (getPhotos_miss _ _ env w Hmiss), Hok, Hw. cbn [fst snd].
  intros Hfresh.
  rewrite (getPhotos_hit _ _ env2 _
             {| Cache.photos := photos; Cache.updatedAt := clock w + latency env |})
    by (cbn; apply lookup_insert_eq).
  unfold requested in *.
  cbn [Cache.photos Cache.updatedAt clock set_clock set_storage set_requests] in *.
  destruct (decide _) as [Hstale | _]; [lia |].
  f_equal. f_equal. f_equal. apply stored_name_ext. cbn.
  now rewrite lookup_insert_ne by discriminate.
Qed.

(** X4: once the refetch started by a stale read has succeeded and been
    stored, a later call made before the new entry is [CACHE_TTL] old returns
    the fresh photos and issues no request. *)
Theorem getPhotos_after_refetch (env env2 : Env) (w : World) (c : CollectionCache)
    (fresh : list UnsplashPhotoResource) (t2 : Z) :
  storage w !! COLLECTION_CACHE_KEY = Some (VCache c) ->
  CACHE_TTL env <= clock w - Cache.updatedAt c ->
  floating w = [] ->
  response env = inr fresh ->
  writable env = true ->
  let settled := settle env (getPhotos' env w).2 in
  t2 - clock settled < CACHE_TTL env2 ->
  getPhotos' env2 (set_clock t2 settled)
    = (inr (shuffle' fresh (stored_name w)), set_clock t2 settled).
Proof.
  intros Hhit Hstale Hnone Hok Hw settled. subst settled.
  rewrite (getPhotos_hit _ _ env w c Hhit).
  destruct (decide _) as [_ | ?]; [| lia].
  rewrite Hnone. cbn [snd app]. unfold settle.
  cbn [floating set_floating set_requests foldl resume].
  rewrite resumed_world, Hok, Hw. cbn [clock set_clock set_storage].
  intros Hfresh.
  rewrite (getPhotos_hit _ _ env2 _
             {| Cache.photos := fresh; Cache.updatedAt := clock w + latency env |})
    by (cbn; apply lookup_insert_eq).
  cbn [Cache.photos Cache.updatedAt clock set_clock set_storage set_requests
       set_floating] in *.
  destruct (decide _) as [Hstale2 | _]; [lia |].
  f_equal. f_equal. f_equal. apply stored_name_ext. cbn.
  now rewrite lookup_insert_ne by discriminate.
Qed.

(** X5: when the refetch started by a stale read fails, the entry stays as it
    was, so the next call that finds it stale again returns the same cached
    photos and starts a new refetch: the retry happens on the next read. *)
Theorem getPhotos_retries_failed_refetch (env env2 : Env) (w : World)
    (c : CollectionCache) (e : Error) (t2 : Z) :
  storage w !! COLLECTION_CACHE_KEY = Some (VCache c) ->
  CACHE_TTL env <= clock w - Cache.updatedAt c ->
  floating w = [] ->
  response env = inl e ->
  CACHE_TTL env2 <= t2 - Cache.updatedAt c ->
  let settled := settle env (getPhotos' env w).2 in
  let second := getPhotos' env2 (set_clock t2 settled) in
  storage settled = storage w
  /\ second.1 = (getPhotos' env w).1
  /\ second.1 = inr (shuffle' (Cache.photos c) (stored_name w))
  /\ requests second.2 = S (S (requests w))
  /\ floating second.2 = [Refetch].
Proof.
  intros Hhit Hstale Hnone Hfail Hstale2 settled second. subst second settled.
  rewrite (getPhotos_hit _ _ env w c Hhit).
  destruct (decide _) as [_ | ?]; [| lia].
  rewrite Hnone. cbn [fst snd app]. unfold settle.
  cbn [floating set_floating set_requests foldl resume].
  rewrite resumed_world, Hfail.
  rewrite (getPhotos_hit _ _ env2 _ c) by exact Hhit.
  cbn [clock set_clock].
  destruct (decide _) as [_ | ?]; [| lia].
  repeat split.
Qed.

(** X6: a cache miss that leaves nothing stored, because the request failed
    or because the storage refused the write, is followed by another miss: the
    next call issues a request of its own and returns what that request
    delivers. *)
Theorem getPhotos_miss_again (env env2 : Env) (w : World) (t2 : Z) :
  storage w !! COLLECTION_CACHE_KEY = None ->
  (exists e, response env = inl e) \/ writable env = false ->
  let second := getPhotos' env2 (set_clock t2 (getPhotos' env w).2) in
  storage (getPhotos' env w).2 = storage w
  /\ requests second.2 = S (S (requests w))
  /\ second.1 = match response env2 with
                | inl e2 => inl e2
                | inr photos2 => inr (shuffle' photos2 (stored_name w))
                end.
Proof.
  intros Hmiss Hnothing second. subst second.
  assert (Hfirst : exists w1,
            (getPhotos' env w).2 = w1 /\ storage w1 = storage w
            /\ requests w1 = S (requests w)).
  { rewrite (getPhotos_miss _ _ env w Hmiss).
    destruct Hnothing as [[e He] | Hw].
    - rewrite He. eexists; repeat split.
    - rewrite Hw. destruct (response env); eexists; repeat split. }
  destruct Hfirst as (w1 & -> & Hstore & Hreq).
  split; [exact Hstore |].
  rewrite (getPhotos_miss _ _ env2 (set_clock t2 w1))
    by (cbn; now rewrite Hstore).
  assert (Hname : stored_name (set_clock t2 w1) = stored_name w)
    by (apply stored_name_ext; cbn; now rewrite Hstore).
  rewrite Hname.
  destruct (response env2); [cbn; split; [now rewrite Hreq | reflexivity] |].
  destruct (writable env2); cbn; (split; [now rewrite Hreq | reflexivity]).
Qed.

End PhotosSequences.

Lemma getPhotos_miss_then_hit_witness :
  let env := Sample.env false (inr Sample.three) true Sample.all_load in
  let w := Sample.world ∅ Sample.noon in
  let first := getPhotos Sample.rng "none" env w in
  storage w !! COLLECTION_CACHE_KEY = None
  /\ Sample.noon + 1000 - clock first.2 < CACHE_TTL env
  /\ getPhotos Sample.rng "none" env (set_clock (Sample.noon + 1000) first.2)
     = (first.1, set_clock (Sample.noon + 1000) first.2).
Proof.
  intros env w first.
  assert (Hmiss : storage w !! COLLECTION_CACHE_KEY = None) by reflexivity.
  assert (Hfresh : Sample.noon + 1000 - clock first.2 < CACHE_TTL env)
    by (vm_compute; reflexivity).
  split; [exact Hmiss | split; [exact Hfresh |]].
  exact (getPhotos_miss_then_hit Sample.rng "none" env env w Sample.three
           (Sample.noon + 1000) Hmiss eq_refl eq_refl Hfresh).
Defined.

Lemma getPhotos_after_refetch_witness :
  let env := Sample.env false (inr Sample.five) true Sample.all_load in
  let c := {| Cache.photos := Sample.three;
              Cache.updatedAt := Sample.noon - Sample.six_hours |} in
  let w := Sample.world (Sample.cached Sample.three (Sample.noon - Sample.six_hours))
             Sample.noon in
  let settled := settle env (getPhotos Sample.rng "none" env w).2 in
  CACHE_TTL env <= clock w - Cache.updatedAt c
  /\ Sample.noon + 1000 - clock settled < CACHE_TTL env
  /\ getPhotos Sample.rng "none" env (set_clock (Sample.noon + 1000) settled)
     = (inr (shuffle Sample.rng "none" Sample.five (stored_name w)),
        set_clock (Sample.noon + 1000) settled).
Proof.
  intros env c w settled.
  assert (Hstale : CACHE_TTL env <= clock w - Cache.updatedAt c)
    by (vm_compute; discriminate).
  assert (Hfresh : Sample.noon + 1000 - clock settled < CACHE_TTL env)
    by (vm_compute; reflexivity).
  split; [exact Hstale | split; [exact Hfresh |]].
  exact (getPhotos_after_refetch Sample.rng "none" env env w c Sample.five
           (Sample.noon + 1000) eq_refl Hstale eq_refl eq_refl eq_refl Hfresh).
Defined.

Lemma getPhotos_retries_failed_refetch_witness :
  let offline := {| message := "Network Error" |} in
  let env := Sample.env false (inl offline) true Sample.all_load in
  let c := {| Cache.photos := Sample.three;
              Cache.updatedAt := Sample.noon - Sample.six_hours |} in
  let w := Sample.world (Sample.cached Sample.three (Sample.noon - Sample.six_hours))
             Sample.noon in
  let settled := settle env (getPhotos Sample.rng "none" env w).2 in
  CACHE_TTL env <= clock w - Cache.updatedAt c
  /\ CACHE_TTL env <= Sample.noon + 1000 - Cache.updatedAt c
  /\ storage settled = storage w
  /\ requests (getPhotos Sample.rng "none" env (set_clock (Sample.noon + 1000) settled)).2
     = 2%nat.
Proof.
  intros offline env c w settled.
  assert (Hstale : CACHE_TTL env <= clock w - Cache.updatedAt c)
    by (vm_compute; discriminate).
  assert (Hstale2 : CACHE_TTL env <= Sample.noon + 1000 - Cache.updatedAt c)
    by (vm_compute; discriminate).
  split; [exact Hstale | split; [exact Hstale2 |]].
  destruct (getPhotos_retries_failed_refetch Sample.rng "none" env env w c offline
              (Sample.noon + 1000) eq_refl Hstale eq_refl eq_refl Hstale2)
    as (Hstore & _ & _ & Hreq & _).
  split; [exact Hstore | exact Hreq].
Defined.

Lemma getPhotos_miss_again_witness :
  let env := Sample.env false (inr Sample.three) false Sample.all_load in
  let w := Sample.world ∅ Sample.noon in
  storage w !! COLLECTION_CACHE_KEY = None
  /\ writable env = false
  /\ requests (getPhotos Sample.rng "none" env
                 (set_clock (Sample.noon + 1000)
                    (getPhotos Sample.rng "none" env w).2)).2 = 2%nat.
Proof.
  intros env w.
  assert (Hmiss : storage w !! COLLECTION_CACHE_KEY = None) by reflexivity.
  assert (Hw : writable env = false) by reflexivity.
  split; [exact Hmiss | split; [exact Hw |]].
  exact (proj1 (proj2 (getPhotos_miss_again Sample.rng "none" env env w
                         (Sample.noon + 1000) Hmiss (or_intror Hw)))).
Defined.

(** ** The component across mounts, keys and updates *)

Section SplashMore.

Import Splash.

Variable seedrandom : string -> nat -> Q.
Variable fallback : string.
Variable env : Env.

#[local] Abbreviation getPhotos' := (getPhotos seedrandom fallback env).
#[local] Abbreviation componentDidMount' := (componentDidMount seedrandom fallback env).
#[local] Abbreviation reachable' := (reachable seedrandom fallback env).

Lemma componentDidMount_mousetrap (c : Component) (w : World) :
  mousetrap (componentDidMount' c w).1 = mousetrap c
  \/ (development env = true
      /\ mousetrap (componentDidMount' c w).1 = ArrowLeft :: ArrowRight :: mousetrap c).
Proof.
  unfold componentDidMount.
  destruct (getPhotos' w) as [[err | fetched] w']; [now left |].
  cbn [fst]. unfold enableKeyboardShortcuts.
  destruct (development env); [right | left]; auto.
Qed.

Lemma press_mousetrap (k : Key) (c : Component) : mousetrap (press k c) = mousetrap c.
Proof. unfold press. now destruct (bool_decide _). Qed.

(** X7: outside development no key is ever bound: in every component that
    mounting and key presses can produce, pressing an arrow key changes
    nothing. *)
Theorem arrow_keys_only_in_development (c : Component) :
  reachable' c ->
  development env = false ->
  mousetrap c = [] /\ forall k, press k c = c.
Proof.
  intros Hreach Hprod.
  assert (Hnone : mousetrap c = []).
  { induction Hreach as [| c w Hreach IH | c k Hreach IH].
    - reflexivity.
    - destruct (componentDidMount_mousetrap c w) as [-> | [Hdev _]];
        [exact IH | congruence].
    - now rewrite press_mousetrap. }
  split; [exact Hnone |].
  intros k. unfold press. rewrite Hnone.
  rewrite bool_decide_eq_false_2 by apply not_elem_of_nil. reflexivity.
Qed.

Lemma get_elem_of {A : Type} (arr : list A) (i : number) (x : A) :
  Js.get arr i = Some x -> x ∈ arr.
Proof.
  destruct i as [z |]; [| discriminate]. unfold Js.get.
  destruct (decide (0 <= z)); [| discriminate].
  intros Hx. apply list_elem_of_lookup. eauto.
Qed.

Lemma get_empty {A : Type} (i : number) : Js.get (@nil A) i = None.
Proof.
  destruct i as [z |]; [| reflexivity]. unfold Js.get.
  now destruct (decide (0 <= z)).
Qed.

(** X9: when [getPhotos] succeeds with an empty collection, the mounted
    component holds no photo and the index NaN; [render] shows the empty div
    (unless the development [src] override supplies a photo); the arrow keys
    keep the index at NaN; and [componentDidUpdate] is rejected with a
    TypeError before any image load is started. *)
Theorem mount_with_empty_collection (c : Component) (w w' : World) :
  getPhotos' w = (inr [], w') ->
  let c' := (componentDidMount' c w).1 in
  photos (state c') = []
  /\ index (state c') = NaN
  /\ (development env && truthy (query_src env) = false ->
      forall swatch, render env (state c') swatch = EmptyDiv)
  /\ componentDidUpdate env (state c')
     = {| started := []; outcome := Rejected 0 TypeError |}
  /\ (forall k, index (state (press k c')) = NaN
               /\ photos (state (press k c')) = []).
Proof.
  intros Hget c'. subst c'. unfold componentDidMount. rewrite Hget.
  cbn [fst]. rewrite enableKeyboardShortcuts_state. cbn [state photos index].
  split; [reflexivity | split; [reflexivity |]].
  split; [| split].
  - intros Hsrc swatch. unfold render, getPhoto. rewrite Hsrc. reflexivity.
  - reflexivity.
  - intros k. unfold press.
    destruct (bool_decide _); cbn [state];
      rewrite ?enableKeyboardShortcuts_state; [| split; reflexivity].
    destruct k; split; reflexivity.
Qed.

(** X10: in every component that mounting and key presses can produce, with
    a non-empty collection, [componentDidUpdate] starts one image load outside
    development and two in development, each for a photo of the collection;
    its promise is never rejected with a TypeError; it is fulfilled when every
    load it started succeeds, and a rejection carries the URL of a started
    load that failed. *)
Theorem componentDidUpdate_loads_neighbours (c : Component) :
  reachable' c ->
  photos (state c) ≠ [] ->
  let p := componentDidUpdate env (state c) in
  (forall u, u ∈ started p ->
     exists photo, photo ∈ photos (state c) /\ full (urls photo) = u)
  /\ List.length (started p) = (if development env then 2 else 1)%nat
  /\ (forall t, outcome p ≠ Rejected t TypeError)
  /\ ((forall u, u ∈ started p -> loaded (image env u) = true) ->
      exists t, outcome p = Fulfilled t)
  /\ (forall t u, outcome p = Rejected t (ImageError u) ->
        u ∈ started p /\ loaded (image env u) = false).
Proof.
  intros Hreach Hne p. subst p. unfold componentDidUpdate.
  destruct (reachable_in_bounds _ _ _ c Hreach Hne) as (i & Hi & _).
  destruct (preloadNeighboringPhotos_nonempty env (state c) i Hne Hi)
    as (nextPhoto & prevPhoto & Hnext & Hprev & ->).
  apply get_elem_of in Hnext. apply get_elem_of in Hprev.
  set (nu := full (urls nextPhoto)) in *.
  set (pu := full (urls prevPhoto)) in *.
  destruct (development env); cbn [started outcome Promise_all]; unfold preloadImage.
  - split.
    { intros u Hu. apply list_elem_of_In in Hu. destruct Hu as [<- | [<- | []]]; eauto. }
    split; [reflexivity |].
    destruct (loaded (image env nu)) eqn:Ln, (loaded (image env pu)) eqn:Lp;
      cbn; repeat (destruct (decide _)); (split; [discriminate |]);
      (split; [intros Hall; try (eexists; reflexivity);
               try (rewrite (Hall nu) in Ln by set_solver; discriminate);
               try (rewrite (Hall pu) in Lp by set_solver; discriminate) |]);
      intros t u Hrej; try discriminate; injection Hrej as _ <-;
      (split; [set_solver | assumption]).
  - split.
    { intros u Hu. apply list_elem_of_In in Hu. destruct Hu as [<- | []]; eauto. }
    split; [reflexivity |].
    destruct (loaded (image env nu)) eqn:Ln; cbn;
      (split; [discriminate |]);
      (split; [intros Hall; try (eexists; reflexivity);
               try (rewrite (Hall nu) in Ln by set_solver; discriminate) |]);
      intros t u Hrej; try discriminate; injection Hrej as _ <-;
      (split; [set_solver | assumption]).
Qed.

End SplashMore.

Lemma arrow_keys_only_in_development_witness :
  let env := Sample.env false (inr Sample.three) true Sample.all_load in
  let c := (Splash.componentDidMount Sample.rng "none" env Splash.initial
              (Sample.world ∅ Sample.noon)).1 in
  Splash.reachable Sample.rng "none" env c
  /\ development env = false
  /\ Splash.press Splash.ArrowLeft c = c.
Proof.
  intros env c.
  assert (Hreach : Splash.reachable Sample.rng "none" env c)
    by apply Splash.reachable_mount, Splash.reachable_initial.
  split; [exact Hreach | split; [reflexivity |]].
  exact (proj2 (arrow_keys_only_in_development Sample.rng "none" env c Hreach eq_refl)
           Splash.ArrowLeft).
Defined.

Lemma mount_with_empty_collection_witness :
  let env := Sample.env true (inr []) true Sample.all_load in
  let w := Sample.world ∅ Sample.noon in
  exists w',
    getPhotos Sample.rng "none" env w = (inr [], w')
    /\ Splash.index
         (Splash.state (Splash.componentDidMount Sample.rng "none" env Splash.initial w).1)
       = NaN.
Proof.
  intros env w.
  destruct (getPhotos Sample.rng "none" env w) as [r w'] eqn:Hget.
  assert (Hr : r = inr []) by (apply (f_equal fst) in Hget; vm_compute in Hget; congruence).
  subst r. exists w'. split; [reflexivity |].
  exact (proj1 (proj2 (mount_with_empty_collection Sample.rng "none" env
                         Splash.initial w w' Hget))).
Defined.

Lemma componentDidUpdate_loads_neighbours_witness :
  let env := Sample.env true (inr Sample.three) true Sample.a_fails in
  let c := (Splash.componentDidMount Sample.rng "none" env Splash.initial
              (Sample.world ∅ Sample.noon)).1 in
  Splash.reachable Sample.rng "none" env c
  /\ Splash.photos (Splash.state c) ≠ []
  /\ List.length (Splash.started (Splash.componentDidUpdate env (Splash.state c))) = 2%nat.
Proof.
  intros env c.
  assert (Hreach : Splash.reachable Sample.rng "none" env c)
    by apply Splash.reachable_mount, Splash.reachable_initial.
  assert (Hne : Splash.photos (Splash.state c) ≠ []) by (vm_compute; discriminate).
  split; [exact Hreach | split; [exact Hne |]].
  exact (proj1 (proj2 (componentDidUpdate_loads_neighbours Sample.rng "none" env c
                         Hreach Hne))).
Defined.

(** ** Navigation round trips *)

Lemma setIndex_same (s : Splash.SplashState) :
  Splash.setIndex (Splash.index s) s = s.
Proof. now destruct s. Qed.

Lemma iter_right (s : Splash.SplashState) (i : Z) (k : nat) :
  Splash.photos s ≠ [] ->
  Splash.index s = Num i ->
  0 <= i < Z.of_nat (List.length (Splash.photos s)) ->
  Nat.iter k (Splash.handler Splash.ArrowRight) s
    = Splash.setIndex
        (Num ((i + Z.of_nat k) mod Z.of_nat (List.length (Splash.photos s)))) s.
Proof.
  intros Hne Hi Hrange.
  induction k as [| k IH].
  - cbn [Nat.iter nat_rect]. rewrite Z.add_0_r, Z.mod_small by lia.
    now rewrite <- Hi, setIndex_same.
  - rewrite Nat.iter_succ, IH. unfold Splash.handler, Splash.setIndex.
    cbn [Splash.index Splash.photos Splash.showSwatch add].
    rewrite modIndex_nonempty by assumption.
    rewrite Z.add_mod_idemp_l by lia. do 3 f_equal. lia.
Qed.

Lemma iter_left (s : Splash.SplashState) (i : Z) (k : nat) :
  Splash.photos s ≠ [] ->
  Splash.index s = Num i ->
  0 <= i < Z.of_nat (List.length (Splash.photos s)) ->
  Nat.iter k (Splash.handler Splash.ArrowLeft) s
    = Splash.setIndex
        (Num ((i - Z.of_nat k) mod Z.of_nat (List.length (Splash.photos s)))) s.
Proof.
  intros Hne Hi Hrange.
  induction k as [| k IH].
  - cbn [Nat.iter nat_rect]. rewrite Z.sub_0_r, Z.mod_small by lia.
    now rewrite <- Hi, setIndex_same.
  - rewrite Nat.iter_succ, IH. unfold Splash.handler, Splash.setIndex.
    cbn [Splash.index Splash.photos Splash.showSwatch sub].
    rewrite modIndex_nonempty by assumption.
    rewrite Zminus_mod_idemp_l. do 3 f_equal. lia.
Qed.

(** X8: on a state whose index points into a non-empty collection, the arrow
    keys undo each other, and as many presses of the same key as there are
    photos lead back to the state they started from: navigation walks a cycle
    through the whole collection. *)
Theorem navigation_round_trip (s : Splash.SplashState) (i : Z) :
  Splash.photos s ≠ [] ->
  Splash.index s = Num i ->
  0 <= i < Z.of_nat (List.length (Splash.photos s)) ->
  Splash.handler Splash.ArrowRight (Splash.handler Splash.ArrowLeft s) = s
  /\ Splash.handler Splash.ArrowLeft (Splash.handler Splash.ArrowRight s) = s
  /\ Nat.iter (List.length (Splash.photos s)) (Splash.handler Splash.ArrowRight) s = s
  /\ Nat.iter (List.length (Splash.photos s)) (Splash.handler Splash.ArrowLeft) s = s
  /\ (forall k, (0 < k < List.length (Splash.photos s))%nat ->
        Nat.iter k (Splash.handler Splash.ArrowRight) s ≠ s).
Proof.
  intros Hne Hi Hrange. pose proof (length_nonempty _ Hne) as Hn.
  set (n := Z.of_nat (List.length (Splash.photos s))) in *.
  split; [| split; [| split; [| split]]].
  - rewrite <- (setIndex_same s) at 2. rewrite Hi.
    unfold Splash.handler, Splash.setIndex.
    cbn [Splash.index Splash.photos Splash.showSwatch].
    rewrite Hi. cbn [sub]. rewrite modIndex_nonempty by assumption. cbn [add].
    rewrite modIndex_nonempty by assumption. fold n.
    rewrite Z.add_mod_idemp_l by lia.
    replace (i - 1 + 1) with i by lia. now rewrite Z.mod_small by lia.
  - rewrite <- (setIndex_same s) at 2. rewrite Hi.
    unfold Splash.handler, Splash.setIndex.
    cbn [Splash.index Splash.photos Splash.showSwatch].
    rewrite Hi. cbn [add]. rewrite modIndex_nonempty by assumption. cbn [sub].
    rewrite modIndex_nonempty by assumption. fold n.
    rewrite Zminus_mod_idemp_l.
    replace (i + 1 - 1) with i by lia. now rewrite Z.mod_small by lia.
  - rewrite (iter_right s i _ Hne Hi Hrange). fold n.
    rewrite <- (Z.mul_1_l n) at 1. rewrite Z.mod_add, Z.mod_small by lia.
    rewrite <- Hi. apply setIndex_same.
  - rewrite (iter_left s i _ Hne Hi Hrange). fold n.
    replace (i - n) with (i + (-1) * n) by lia.
    rewrite Z.mod_add, Z.mod_small by lia.
    rewrite <- Hi. apply setIndex_same.
  - intros k Hk. rewrite (iter_right s i k Hne Hi Hrange). fold n.
    intros Heq. apply (f_equal Splash.index) in Heq.
    cbn [Splash.setIndex Splash.index] in Heq. rewrite Hi in Heq.
    injection Heq as Heq.
    destruct (Z_lt_ge_dec (i + Z.of_nat k) n) as [Hlt | Hge].
    + rewrite Z.mod_small in Heq by lia. lia.
    + replace (i + Z.of_nat k) with (i + Z.of_nat k - n + 1 * n) in Heq by lia.
      rewrite Z.mod_add, Z.mod_small in Heq by lia. lia.
Qed.

Lemma navigation_round_trip_witness :
  let s := Sample.mounted Sample.five (Num 0) in
  Splash.photos s ≠ []
  /\ Splash.index s = Num 0
  /\ 0 <= 0 < Z.of_nat (List.length (Splash.photos s))
  /\ Splash.handler Splash.ArrowRight (Splash.handler Splash.ArrowLeft s) = s.
Proof.
  intros s.
  assert (Hne : Splash.photos s ≠ []) by discriminate.
  assert (Hrange : 0 <= 0 < Z.of_nat (List.length (Splash.photos s)))
    by (vm_compute; split; [discriminate | reflexivity]).
  split; [exact Hne | split; [reflexivity | split; [exact Hrange |]]].
  exact (proj1 (navigation_round_trip s 0 Hne eq_refl Hrange)).
Defined.

(** ** The index on one day *)

Lemma modIndex_length {A B : Type} (i : number) (a : list A) (b : list B) :
  List.length a = List.length b -> modIndex i a = modIndex i b.
Proof. unfold modIndex, Js.length. now intros ->. Qed.

Lemma clock_after_hit (env : Env) (w : World) (c : CollectionCache) :
  clock (if decide (CACHE_TTL env <= clock w - Cache.updatedAt c)
         then set_floating (floating w ++ [Refetch]) (set_requests (S (requests w)) w)
         else w) = clock w.
Proof. now destruct (decide _). Qed.

(** X11: two clients that hold cache entries with equally many photos, under
    whatever client identities and however fresh, and that mount at moments
    of the same UTC day, start at the same index; each shows its own
    reordering of its cached collection. *)
Theorem mounted_index_same_on_one_day
    (seedrandom : string -> nat -> Q) (fallback : string)
    (env1 env2 : Env) (c1 c2 : Splash.Component) (w1 w2 : World)
    (cache1 cache2 : CollectionCache) :
  (forall seed, unit_range (seedrandom seed)) ->
  storage w1 !! COLLECTION_CACHE_KEY = Some (VCache cache1) ->
  storage w2 !! COLLECTION_CACHE_KEY = Some (VCache cache2) ->
  List.length (Cache.photos cache1) = List.length (Cache.photos cache2) ->
  clock w1 / 86400000 = clock w2 / 86400000 ->
  let m1 := (Splash.componentDidMount seedrandom fallback env1 c1 w1).1 in
  let m2 := (Splash.componentDidMount seedrandom fallback env2 c2 w2).1 in
  Splash.index (Splash.state m1) = Splash.index (Splash.state m2)
  /\ Splash.index (Splash.state m1) = dayIndex (clock w1) (Cache.photos cache1)
  /\ Splash.photos (Splash.state m1) ≡ₚ Cache.photos cache1
  /\ Splash.photos (Splash.state m2) ≡ₚ Cache.photos cache2.
Proof.
  intros Hrng Hhit1 Hhit2 Hlen Hday m1 m2. subst m1 m2.
  unfold Splash.componentDidMount.
  rewrite (getPhotos_hit _ _ env1 w1 cache1 Hhit1),
          (getPhotos_hit _ _ env2 w2 cache2 Hhit2).
  cbn [fst]. rewrite !enableKeyboardShortcuts_state.
  cbn [Splash.state Splash.index Splash.photos].
  pose proof (shuffle_Permutation seedrandom fallback (Cache.photos cache1)
                (stored_name w1) (Hrng _)) as Hp1.
  pose proof (shuffle_Permutation seedrandom fallback (Cache.photos cache2)
                (stored_name w2) (Hrng _)) as Hp2.
  rewrite !clock_after_hit. unfold dayIndex, sinceEpoch. cbn [ms_per]. rewrite Hday.
  split; [| split; [| split; assumption]].
  - apply modIndex_length. rewrite Hp1, Hp2. exact Hlen.
  - apply modIndex_length. now rewrite Hp1.
Qed.

Lemma mounted_index_same_on_one_day_witness :
  let env := Sample.env false (inr Sample.five) true Sample.all_load in
  let cache := {| Cache.photos := Sample.three; Cache.updatedAt := Sample.noon - 1000 |} in
  let w1 := Sample.world (Sample.cached Sample.three (Sample.noon - 1000)) Sample.noon in
  let w2 := Sample.world
              (<["name" := VString "lawn"]> (Sample.cached Sample.three (Sample.noon - 1000)))
              (Sample.noon + 3600000) in
  clock w1 / 86400000 = clock w2 / 86400000
  /\ Splash.index (Splash.state (Splash.componentDidMount Sample.rng "none" env
                                   Splash.initial w1).1)
     = Splash.index (Splash.state (Splash.componentDidMount Sample.rng "none" env
                                     Splash.initial w2).1).
Proof.
  intros env cache w1 w2.
  assert (Hday : clock w1 / 86400000 = clock w2 / 86400000) by reflexivity.
  split; [exact Hday |].
  exact (proj1 (mounted_index_same_on_one_day Sample.rng "none" env env
                  Splash.initial Splash.initial w1 w2 cache cache
                  Sample_rng_unit_range eq_refl eq_refl eq_refl Hday)).
Defined.

(** ** The component that announces its photo *)

Section SplashReadyFacts.

Variable greaterOf : Z -> Z -> Z.
Variable stringify : gmap string any -> string.
Variable screen : Screen.
Variable env : Env.

#[local] Abbreviation fullUrl' := (SplashReady.fullUrl greaterOf stringify screen).
#[local] Abbreviation preloadPhotos' :=
  (SplashReady.preloadPhotos greaterOf stringify screen env).
#[local] Abbreviation render' := (SplashReady.render greaterOf stringify screen env).

(** What [preloadPhotos] does on a non-empty collection. *)
Lemma preloadPhotos_nonempty (s : Splash.SplashState) (i : Z) :
  Splash.photos s ≠ [] ->
  Splash.index s = Num i ->
  let n := Z.of_nat (List.length (Splash.photos s)) in
  exists currentPhoto nextPhoto prevPhoto,
    Js.get (Splash.photos s) (Num (i mod n)) = Some currentPhoto
    /\ Js.get (Splash.photos s) (Num ((i + 1) mod n)) = Some nextPhoto
    /\ Js.get (Splash.photos s) (Num ((i - 1) mod n)) = Some prevPhoto
    /\ let cu := fullUrl' (full (urls currentPhoto)) in
       let nu := fullUrl' (full (urls nextPhoto)) in
       let pu := fullUrl' (full (urls prevPhoto)) in
       let current := SplashReady.then_emit (preloadImage env cu) "photoReady" in
       preloadPhotos' s =
         if development env
         then {| SplashReady.started := [nu; cu; pu];
                 SplashReady.outcome :=
                   Promise_all [preloadImage env nu; current.1; preloadImage env pu];
                 SplashReady.emitted := current.2 |}
         else {| SplashReady.started := [nu; cu];
                 SplashReady.outcome := Promise_all [preloadImage env nu; current.1];
                 SplashReady.emitted := current.2 |}.
Proof.
  intros Hne Hi n. pose proof (length_nonempty _ Hne) as Hn. fold n in Hn.
  destruct (get_in_range (Splash.photos s) (i mod n)) as [currentPhoto Hcur];
    [apply Z.mod_pos_bound; lia |].
  destruct (get_in_range (Splash.photos s) ((i + 1) mod n)) as [nextPhoto Hnext];
    [apply Z.mod_pos_bound; lia |].
  destruct (get_in_range (Splash.photos s) ((i - 1) mod n)) as [prevPhoto Hprev];
    [apply Z.mod_pos_bound; lia |].
  exists currentPhoto, nextPhoto, prevPhoto.
  split; [exact Hcur | split; [exact Hnext | split; [exact Hprev |]]].
  cbn zeta. unfold SplashReady.preloadPhotos. rewrite Hi. cbn [add sub].
  rewrite !modIndex_nonempty by assumption. fold n. rewrite Hnext, Hcur, Hprev.
  reflexivity.
Qed.

(** X12: on a non-empty collection, [preloadPhotos] emits [photoReady]
    exactly when the image of the photo at the normalised index has loaded,
    at the time it loaded, whatever becomes of the loads of its neighbours
    and of the promise returned; and when that promise is fulfilled,
    [photoReady] was emitted no later. *)
Theorem photoReady_follows_current_photo (s : Splash.SplashState) (i : Z) :
  Splash.photos s ≠ [] ->
  Splash.index s = Num i ->
  exists currentPhoto,
    let cu := fullUrl' (full (urls currentPhoto)) in
    Js.get (Splash.photos s) (modIndex (Num i) (Splash.photos s)) = Some currentPhoto
    /\ cu ∈ SplashReady.started (preloadPhotos' s)
    /\ SplashReady.emitted (preloadPhotos' s)
       = (if loaded (image env cu)
          then [(at_time (image env cu), "photoReady")]
          else [])
    /\ (forall t,
          SplashReady.outcome (preloadPhotos' s) = Fulfilled t ->
          SplashReady.emitted (preloadPhotos' s) = [(at_time (image env cu), "photoReady")]
          /\ (at_time (image env cu) ≤ t)%nat).
Proof.
  intros Hne Hi.
  destruct (preloadPhotos_nonempty s i Hne Hi)
    as (currentPhoto & nextPhoto & prevPhoto & Hcur & _ & _ & Hpre).
  exists currentPhoto. cbn zeta in *.
  rewrite modIndex_nonempty by assumption.
  split; [exact Hcur |]. rewrite Hpre. clear Hpre.
  set (cu := fullUrl' (full (urls currentPhoto))).
  set (nu := fullUrl' (full (urls nextPhoto))).
  set (pu := fullUrl' (full (urls prevPhoto))).
  unfold preloadImage, SplashReady.then_emit.
  destruct (development env);
    cbn [SplashReady.started SplashReady.outcome SplashReady.emitted].
  - split; [set_solver |].
    destruct (loaded (image env cu)), (loaded (image env nu)), (loaded (image env pu));
      cbn; repeat (destruct (decide _)); (split; [reflexivity |]);
      intros t Ht; try discriminate; injection Ht as <-; split; [reflexivity | lia].
  - split; [set_solver |].
    destruct (loaded (image env cu)), (loaded (image env nu));
      cbn; repeat (destruct (decide _)); (split; [reflexivity |]);
      intros t Ht; try discriminate; injection Ht as <-; split; [reflexivity | lia].
Qed.

(** X13: in every component that mounting and key presses can produce, with
    a non-empty collection and no [src] override, the background image that
    [render] shows is one of the URLs that [preloadPhotos] loads, and
    [photoReady] is emitted exactly when that image has loaded. *)
Theorem photoReady_announces_rendered_photo
    (seedrandom : string -> nat -> Q) (fallback : string) (c : Splash.Component) :
  Splash.reachable seedrandom fallback env c ->
  Splash.photos (Splash.state c) ≠ [] ->
  development env && Splash.truthy (query_src env) = false ->
  exists photo,
    let backgroundImage := fullUrl' (full (urls photo)) in
    (forall swatch,
       render' (Splash.state c) swatch
       = SplashReady.Provider photo backgroundImage (development env && swatch))
    /\ SplashReady.started (preloadPhotos' (Splash.state c)) !! 1%nat
       = Some backgroundImage
    /\ SplashReady.emitted (preloadPhotos' (Splash.state c))
       = (if loaded (image env backgroundImage)
          then [(at_time (image env backgroundImage), "photoReady")]
          else []).
Proof.
  intros Hreach Hne Hsrc.
  destruct (reachable_in_bounds _ _ _ c Hreach Hne) as (i & Hi & Hrange).
  destruct (preloadPhotos_nonempty (Splash.state c) i Hne Hi)
    as (currentPhoto & nextPhoto & prevPhoto & Hcur & _ & _ & Hpre).
  rewrite Z.mod_small in Hcur by exact Hrange.
  exists currentPhoto. cbn zeta in *.
  split; [| rewrite Hpre; split].
  - intros swatch. unfold SplashReady.render, Splash.getPhoto.
    now rewrite Hsrc, Hi, Hcur.
  - now destruct (development env).
  - unfold SplashReady.then_emit, preloadImage.
    destruct (development env); cbn [SplashReady.emitted];
      now destruct (loaded _).
Qed.

End SplashReadyFacts.

Lemma photoReady_follows_current_photo_witness :
  let env := Sample.env true (inr Sample.three) true Sample.all_load in
  let s := Sample.mounted Sample.three (Num 1) in
  let stringify := (λ _ : gmap string any, "auto=format") in
  Splash.photos s ≠ []
  /\ Splash.index s = Num 1
  /\ exists currentPhoto,
       Js.get (Splash.photos s) (modIndex (Num 1) (Splash.photos s)) = Some currentPhoto
       /\ SplashReady.fullUrl Z.max stringify {| availWidth := 1440; availHeight := 900 |}
            (full (urls currentPhoto))
          ∈ SplashReady.started
              (SplashReady.preloadPhotos Z.max stringify
                 {| availWidth := 1440; availHeight := 900 |} env s).
Proof.
  intros env s stringify.
  assert (Hne : Splash.photos s ≠ []) by discriminate.
  split; [exact Hne | split; [reflexivity |]].
  destruct (photoReady_follows_current_photo Z.max stringify
              {| availWidth := 1440; availHeight := 900 |} env s 1 Hne eq_refl)
    as (currentPhoto & Hcur & Hin & _).
  exists currentPhoto. split; [exact Hcur | exact Hin].
Defined.

Lemma photoReady_announces_rendered_photo_witness :
  let env := Sample.env false (inr Sample.three) true Sample.all_load in
  let stringify := (λ _ : gmap string any, "auto=format") in
  let screen := {| availWidth := 1440; availHeight := 900 |} in
  let c := (Splash.componentDidMount Sample.rng "none" env Splash.initial
              (Sample.world ∅ Sample.noon)).1 in
  Splash.reachable Sample.rng "none" env c
  /\ Splash.photos (Splash.state c) ≠ []
  /\ development env && Splash.truthy (query_src env) = false
  /\ exists photo,
       SplashReady.started
         (SplashReady.preloadPhotos Z.max stringify screen env (Splash.state c)) !! 1%nat
       = Some (SplashReady.fullUrl Z.max stringify screen (full (urls photo))).
Proof.
  intros env stringify screen c.
  assert (Hreach : Splash.reachable Sample.rng "none" env c)
    by apply Splash.reachable_mount, Splash.reachable_initial.
  assert (Hne : Splash.photos (Splash.state c) ≠ []) by (vm_compute; discriminate).
  split; [exact Hreach | split; [exact Hne | split; [reflexivity |]]].
  destruct (photoReady_announces_rendered_photo Z.max stringify screen env
              Sample.rng "none" c Hreach Hne eq_refl) as (photo & _ & Hstarted & _).
  exists photo. exact Hstarted.
Defined.

(** ** Image URLs *)

Section UrlFacts.

Variable greaterOf : Z -> Z -> Z.
Variable stringify : gmap string any -> string.
Variable screen : Screen.

#[local] Abbreviation buildParams' := (buildParams greaterOf screen).
#[local] Abbreviation getFullImageUrl' := (getFullImageUrl greaterOf stringify screen).

Lemma buildParams_defaults (k : string) :
  buildParams' None !! k
  = if decide (k = "auto") then Some (Str "format")
    else if decide (k = "fit") then Some (Str "max")
    else if decide (k = "w") then Some (Number (getScreenSize greaterOf screen))
    else if decide (k = "h") then Some (Number (getScreenSize greaterOf screen))
    else if decide (k = "q") then Some (Number 80)
    else None.
Proof.
  unfold buildParams. cbn [default]. rewrite (left_id ∅ (∪)).
  destruct (decide (k = "auto")) as [-> | ?]; [apply lookup_insert_eq |].
  rewrite lookup_insert_ne by congruence.
  destruct (decide (k = "fit")) as [-> | ?]; [apply lookup_insert_eq |].
  rewrite lookup_insert_ne by congruence.
  destruct (decide (k = "w")) as [-> | ?]; [apply lookup_insert_eq |].
  rewrite lookup_insert_ne by congruence.
  destruct (decide (k = "h")) as [-> | ?]; [apply lookup_insert_eq |].
  rewrite lookup_insert_ne by congruence.
  destruct (decide (k = "q")) as [-> | ?]; [apply lookup_insert_eq |].
  rewrite lookup_insert_ne by congruence. apply lookup_empty.
Qed.

(** X14: the parameters that [buildOptions] writes are the overrides on top
    of five defaults: an overridden key carries the override, a key that is
    not overridden carries its default ([auto=format], [fit=max], [q=80], and
    for [w] and [h] one and the same screen size) and no other key appears; so
    no options, empty options and options that repeat the parameters
    themselves all give the same URL. *)
Theorem buildParams_overrides_win (overrides : gmap string any) (baseUrl : string) :
  (forall k v, overrides !! k = Some v -> buildParams' (Some overrides) !! k = Some v)
  /\ (forall k, overrides !! k = None ->
        buildParams' (Some overrides) !! k = buildParams' None !! k)
  /\ buildParams' None !! "auto" = Some (Str "format")
  /\ buildParams' None !! "fit" = Some (Str "max")
  /\ buildParams' None !! "q" = Some (Number 80)
  /\ buildParams' None !! "w" = Some (Number (greaterOf (availWidth screen) (availHeight screen)))
  /\ buildParams' None !! "h" = buildParams' None !! "w"
  /\ dom (buildParams' (Some overrides))
     = dom overrides ∪ {["auto"; "fit"; "w"; "h"; "q"]}
  /\ getFullImageUrl' baseUrl (Some ∅) = getFullImageUrl' baseUrl None
  /\ getFullImageUrl' baseUrl (Some (buildParams' (Some overrides)))
     = getFullImageUrl' baseUrl (Some overrides).
Proof.
  assert (Hwin : forall k v, overrides !! k = Some v ->
                   buildParams' (Some overrides) !! k = Some v).
  { intros k v Hk. unfold buildParams. cbn [default].
    now apply lookup_union_Some_l. }
  assert (Hkeep : forall k, overrides !! k = None ->
                    buildParams' (Some overrides) !! k = buildParams' None !! k).
  { intros k Hk. unfold buildParams. cbn [default].
    rewrite (left_id ∅ (∪)). now apply lookup_union_r. }
  split; [exact Hwin | split; [exact Hkeep |]].
  do 5 (split; [now rewrite !buildParams_defaults |]).
  split; [| split].
  - unfold buildParams. cbn [default]. rewrite dom_union_L.
    f_equal; rewrite ?dom_insert_L, ?dom_empty_L; set_solver.
  - unfold getFullImageUrl, buildOptions, buildParams. cbn [default]. reflexivity.
  - unfold getFullImageUrl, buildOptions. do 3 f_equal.
    apply map_eq. intros k.
    destruct (buildParams' (Some overrides) !! k) as [v |] eqn:Hk.
    + unfold buildParams at 1. cbn [default]. now apply lookup_union_Some_l.
    + unfold buildParams at 1. cbn [default]. rewrite lookup_union_r by exact Hk.
      unfold buildParams in Hk. cbn [default] in Hk.
      apply lookup_union_None in Hk. now destruct Hk.
Qed.

End UrlFacts.

(** ** The images lambda *)

Section LambdaFacts.

Context {InspiratPhotoResource : Type}.

#[local] Abbreviation Response' := (@Lambda.Response InspiratPhotoResource).

(** X15: when the handler returns, either the object [photoCollection] of
    the bucket [inspirat-<STAGE>] was missing and the response is a 500 with
    the message, or it was there and it is the body of the response, an empty
    collection included, with the status code left as it was; the handler is
    rejected exactly when reading [STAGE] or the object is; and nothing but
    that one object of that one bucket has any influence. *)
Theorem handler_serves_the_stored_collection
    (STAGE : Error + string)
    (getJSON : string -> string -> Error + option (list InspiratPhotoResource))
    (response : Response') :
  (forall response',
     Lambda.handler STAGE getJSON response = inr response' ->
     exists stage,
       STAGE = inr stage
       /\ ((getJSON ("inspirat-" +:+ stage) "photoCollection" = inr None
            /\ Lambda.statusCode response' = 500
            /\ Lambda.body response'
               = Lambda.Message "Response from S3 did not contain any photos.")
           \/ (exists photoCollection,
                 getJSON ("inspirat-" +:+ stage) "photoCollection"
                 = inr (Some photoCollection)
                 /\ Lambda.statusCode response' = Lambda.statusCode response
                 /\ Lambda.body response' = Lambda.Photos photoCollection)))
  /\ (forall e,
        Lambda.handler STAGE getJSON response = inl e <->
        STAGE = inl e
        \/ exists stage, STAGE = inr stage
                         /\ getJSON ("inspirat-" +:+ stage) "photoCollection" = inl e)
  /\ (forall stage, STAGE = inr stage ->
        getJSON ("inspirat-" +:+ stage) "photoCollection" = inr (Some []) ->
        Lambda.handler STAGE getJSON response
        = inr {| Lambda.statusCode := Lambda.statusCode response;
                 Lambda.body := Lambda.Photos [] |})
  /\ (forall getJSON2 stage,
        STAGE = inr stage ->
        getJSON2 ("inspirat-" +:+ stage) "photoCollection"
        = getJSON ("inspirat-" +:+ stage) "photoCollection" ->
        Lambda.handler STAGE getJSON2 response = Lambda.handler STAGE getJSON response).
Proof.
  unfold Lambda.handler. split; [| split; [| split]].
  - intros response' Hres. destruct STAGE as [e | stage]; [discriminate |].
    exists stage. split; [reflexivity |].
    destruct (getJSON _ _) as [e | [photoCollection |]]; [discriminate | |].
    + right. exists photoCollection. injection Hres as <-. auto.
    + left. injection Hres as <-. auto.
  - intros e. split.
    + destruct STAGE as [e' | stage]; [intros [= ->]; now left |].
      destruct (getJSON _ _) as [e' | [photoCollection |]] eqn:Hget;
        [| discriminate | discriminate].
      intros [= ->]. right. eauto.
    + intros [-> | (stage & -> & ->)]; reflexivity.
  - intros stage -> ->. reflexivity.
  - intros getJSON2 stage -> ->. reflexivity.
Qed.

End LambdaFacts.
